(** * pdfman: search and split over a document's pages

    A shallow embedding of [pdfman.py] and the properties of its text
    normalisation, page search, range parsing, page extraction and
    command-line dispatch.

    Strings.  A Python [str] is a sequence of Unicode code points.  The
    alphabet modelled here is Latin-1, the code points 0..255, together
    with four code points on which [str.lower] does what it never does on
    Latin-1: U+0130, whose lower-case form is two characters; U+0307, the
    second of those two; and U+03D2 and U+1D400, capital letters that have
    no lower-case form.  On this alphabet the character classes below are
    the ones CPython uses: [str.isspace] and the regular expression class
    [\s] agree on every code point, and [str.lower] works character by
    character (its one rule that looks at the context, for the Greek
    sigma, concerns a code point outside the alphabet).
    Integers are unbounded, as in Python, and are modelled by [Z].

    The libraries.  The document library and the console are the
    program's collaborators.  What they do with the program's data is
    part of the world a run starts in: which paths hold a document and
    with which pages, whether a file can be opened for writing, and
    whether the console accepts the markup of a message. *)

From Stdlib Require Import Ascii.
From stdpp Require Import gmap strings list fin_maps sorting.

Local Open Scope Z_scope.

(** ** Python strings *)

Module PyStr.

Inductive char : Type :=
  | Latin (a : ascii)   (* U+0000 .. U+00FF *)
  | CapitalIDot         (* U+0130 LATIN CAPITAL LETTER I WITH DOT ABOVE *)
  | CombiningDot        (* U+0307 COMBINING DOT ABOVE *)
  | UpsilonHook         (* U+03D2 GREEK UPSILON WITH HOOK SYMBOL *)
  | BoldCapitalA.       (* U+1D400 MATHEMATICAL BOLD CAPITAL A *)

Coercion Latin : ascii >-> char.

Abbreviation str := (list char).

#[global] Instance char_eq_dec : EqDecision char.
Proof. solve_decision. Defined.

Definition char_code (c : char) : ascii + nat :=
  match c with
  | Latin a => inl a
  | CapitalIDot => inr 0%nat
  | CombiningDot => inr 1%nat
  | UpsilonHook => inr 2%nat
  | BoldCapitalA => inr 3%nat
  end.

Definition char_decode (x : ascii + nat) : char :=
  match x with
  | inl a => Latin a
  | inr 0%nat => CapitalIDot
  | inr 1%nat => CombiningDot
  | inr 2%nat => UpsilonHook
  | inr _ => BoldCapitalA
  end.

#[global] Instance char_countable : Countable char.
Proof.
  apply (inj_countable' char_code char_decode). intros []; reflexivity.
Defined.

(** A string literal of the source, as a list of characters. *)
Definition lit (s : string) : str := Latin <$> String.list_ascii_of_string s.

(** Code point of a character ([ord]). *)
Definition ord (c : char) : N :=
  match c with
  | Latin a => N_of_ascii a
  | CapitalIDot => 304
  | CombiningDot => 775
  | UpsilonHook => 978
  | BoldCapitalA => 119808
  end.

(** [str.isspace] on one character, which is also the class [\s] of [re]
    for [str] patterns: TAB, LF, VT, FF, CR, the separators FS, GS, RS,
    US, SPACE, NEL (0x85) and NO-BREAK SPACE (0xA0). *)
Definition isspace (c : char) : bool :=
  let n := ord c in
  ((9 <=? n) && (n <=? 13) || (28 <=? n) && (n <=? 32)
   || (n =? 133) || (n =? 160))%N.

(** [str.isupper] on one character: A-Z, the Latin-1 capitals 0xC0-0xDE
    without the multiplication sign 0xD7, and the three capitals beyond
    Latin-1. *)
Definition isupper (c : char) : bool :=
  let n := ord c in
  ((65 <=? n) && (n <=? 90)
   || (192 <=? n) && (n <=? 222) && negb (n =? 215)
   || (n =? 304) || (n =? 978) || (n =? 119808))%N.

(** [str.lower] on one character.  A Latin-1 capital moves 32 code points
    up; U+0130 becomes "i" and the combining dot; every other character,
    the capitals U+03D2 and U+1D400 among them, stays. *)
Definition lower_char (c : char) : str :=
  match c with
  | Latin a =>
      if isupper c then [Latin (ascii_of_N (N_of_ascii a + 32))] else [c]
  | CapitalIDot => [Latin "i"; CombiningDot]
  | _ => [c]
  end.

Definition lower (s : str) : str := s ≫= lower_char.

(** Skip the leading characters of class [f], and the trailing ones: the
    scans behind [str.lstrip], [str.rstrip] and the whitespace that [int]
    ignores. *)
Fixpoint lskip (f : char -> bool) (s : str) : str :=
  match s with
  | c :: r => if f c then lskip f r else s
  | [] => []
  end.

Definition rskip (f : char -> bool) (s : str) : str :=
  reverse (lskip f (reverse s)).

Abbreviation lstrip := (lskip isspace).
Abbreviation rstrip := (rskip isspace).

(** [str.strip()] without argument. *)
Definition strip (s : str) : str := rstrip (lstrip s).

(** [re.sub(r"\s+", " ", s)]: scanning from the left, every maximal run
    of whitespace is one match and is replaced by one space.  The flag
    tells whether the scanner is inside a match, whose replacement has
    been emitted already. *)
Fixpoint sub_ws_from (in_match : bool) (s : str) : str :=
  match s with
  | [] => []
  | c :: r =>
      if isspace c
      then (if in_match then sub_ws_from true r
            else Latin " " :: sub_ws_from true r)
      else c :: sub_ws_from false r
  end.

Definition re_sub_ws (s : str) : str := sub_ws_from false s.

(** [s.startswith(p)]. *)
Fixpoint startswith (p s : str) : bool :=
  match p, s with
  | [], _ => true
  | _ :: _, [] => false
  | a :: p', b :: s' => bool_decide (a = b) && startswith p' s'
  end.

(** [needle in hay] on strings: some position of [hay], the end included,
    starts with [needle]. *)
Fixpoint contains (needle hay : str) : bool :=
  startswith needle hay ||
  match hay with
  | [] => false
  | _ :: r => contains needle r
  end.

(** [s.split(sep)] for a separator of one character: the pieces between
    the occurrences of [sep], one more than there are occurrences. *)
Fixpoint split_char (sep : char) (s : str) : list str :=
  match s with
  | [] => [[]]
  | c :: r =>
      if bool_decide (c = sep) then [] :: split_char sep r
      else match split_char sep r with
           | w :: ws => (c :: w) :: ws
           | [] => [[c]]
           end
  end.

(** *** [int(s)] in base 10

    [int] skips whitespace at both ends, takes one optional sign and then
    needs decimal digits, where single underscores may stand between two
    digits.  The whitespace [int] skips is not [isspace]: the separators
    0x1C-0x1F are refused.  No character of the alphabet beyond Latin-1
    is whitespace or a digit.  (CPython also refuses literals of more
    than 4300 digits by default; that limit is a run-time setting and is
    left out.) *)
Definition int_isspace (c : char) : bool :=
  let n := ord c in
  ((9 <=? n) && (n <=? 13) || (n =? 32) || (n =? 133) || (n =? 160))%N.

Definition int_strip (s : str) : str :=
  rskip int_isspace (lskip int_isspace s).

Definition digit_val (c : char) : option Z :=
  let n := ord c in
  if ((48 <=? n) && (n <=? 57))%N then Some (Z.of_N n - 48) else None.

(** Digits with the value read so far; [need_digit] holds at the start
    and right after an underscore. *)
Fixpoint int_digits (need_digit : bool) (acc : Z) (s : str) : option Z :=
  match s with
  | [] => if need_digit then None else Some acc
  | c :: r =>
      match digit_val c with
      | Some d => int_digits false (10 * acc + d) r
      | None =>
          if bool_decide (c = Latin "_") && negb need_digit
          then int_digits true acc r
          else None
      end
  end.

(** The literal once the whitespace is gone: a sign, then the digits. *)
Definition int_signed (s : str) : option Z :=
  match s with
  | Latin "+" :: r => int_digits true 0 r
  | Latin "-" :: r => Z.opp <$> int_digits true 0 r
  | r => int_digits true 0 r
  end.

Definition int (s : str) : option Z := int_signed (int_strip s).

(** *** [str(n)] for an integer *)

Definition digit_char (d : Z) : char := Latin (ascii_of_N (Z.to_N (48 + d))).

(** The decimal digits of [n], most significant first, in front of
    [acc]; the fuel bounds the number of digits. *)
Fixpoint digits_of (fuel : nat) (n : Z) (acc : str) : str :=
  match fuel with
  | O => acc
  | S fuel' =>
      let acc' := digit_char (n `mod` 10) :: acc in
      if n <? 10 then acc' else digits_of fuel' (n `div` 10) acc'
  end.

Definition str_of_nonneg (n : Z) : str :=
  digits_of (S (Z.to_nat (Z.log2 n))) n [].

Definition str_of_int (n : Z) : str :=
  if n <? 0 then Latin "-" :: str_of_nonneg (- n) else str_of_nonneg n.

End PyStr.

Import PyStr.

(** ** The program *)

(** [normalize(text)].  The argument may be absent ([None]); the guard
    [if not text] answers the empty string for [None] and for [""]. *)
Definition normalize (text : option str) : str :=
  match text with
  | None => []
  | Some [] => []
  | Some t => lower (strip (re_sub_ws t))
  end.

(** The failures of [parse_range].  All of them are Python [ValueError]s:
    four are raised by the function itself with the message given here, two
    by the interpreter on the line that splits and converts. *)
Inductive ValueError : Type :=
  | NotStartEnd                (* "Page range must be in start-end format" *)
  | UnpackMismatch (n : nat)   (* [start, end = ...] with [n] pieces, n <> 2 *)
  | InvalidLiteral (s : str)   (* [int(s)]: invalid literal, quoting [s] *)
  | PagesBelowOne              (* "Pages must be >= 1" *)
  | StartAfterEnd              (* "Start cannot be greater than end" *)
  | ExceedsLength (total : Z). (* "Page range exceeds document length (..)" *)

#[global] Instance ValueError_eq_dec : EqDecision ValueError.
Proof. solve_decision. Defined.

(** A computation that returns or raises. *)
Inductive exn (A : Type) : Type :=
  | Ok (a : A)
  | Raise (e : ValueError).
Arguments Ok {A} a.
Arguments Raise {A} e.

#[global] Instance exn_ret : MRet exn := fun _ a => Ok a.
#[global] Instance exn_bind : MBind exn := fun _ _ f m =>
  match m with
  | Ok a => f a
  | Raise e => Raise e
  end.

(** [int(s)] as a step that may raise. *)
Definition to_int (s : str) : exn Z :=
  match int s with
  | Some n => Ok n
  | None => Raise (InvalidLiteral s)
  end.

(** [start, end = r.split("-")]. *)
Definition unpack2 (parts : list str) : exn (str * str) :=
  match parts with
  | [a; b] => Ok (a, b)
  | _ => Raise (UnpackMismatch (length parts))
  end.

(** [parse_range(r, total)]. *)
Definition parse_range (r : str) (total : Z) : exn (Z * Z) :=
  if negb (contains (lit "-") r) then Raise NotStartEnd
  else
    '(a, b) ← unpack2 (split_char (Latin "-") r);
    start ← to_int a;
    end_ ← to_int b;
    if (start <? 1) || (end_ <? 1) then Raise PagesBelowOne
    else if start >? end_ then Raise StartAfterEnd
    else if end_ >? total then Raise (ExceedsLength total)
    else Ok (start, end_).

(** *** Documents and the world the program runs in *)

(** A page of a parsed document: what [extract_text()] answers for it
    (possibly nothing) and the page object itself, which the program only
    passes on. *)
Record Page : Type := { extract_text : option str; page_obj : N }.

(** What a path of the file system holds: a document the library opens
    and whose pages it reads; a document the library opens but whose page
    list it refuses to read (an encrypted file: [PdfReader] succeeds and
    [reader.pages] raises); or anything [PdfReader] itself raises on, with
    the text of that exception. *)
Inductive File : Type :=
  | PdfFile (pages : list Page)
  | LockedPdf
  | OtherFile (error : str).

(** What the program hands to [console.print]: a template of the source
    with the values interpolated into it.  The console reads the whole as
    markup, so what appears on the terminal need not show the values
    verbatim.  The progress bars are left out.  [Help] and [UsageError]
    are written by the argument parser, not by the console. *)
Inductive Message : Type :=
  | FileNotFound (path : str)
  | ErrorOpening (error : str)
  | Searching (query path : str) (total : Z)  (* shows the path's name *)
  | NotFound
  | FoundOnPages (matches : list Z)
  | RangeError (e : ValueError)
  | Splitting (start end_ : Z)
  | SavedAs (output : str)
  | Help                          (* [parser.print_help()] *)
  | UsageError (problem : str).   (* usage and error line of [parser.error] *)

#[global] Instance Message_eq_dec : EqDecision Message.
Proof. solve_decision. Defined.

Record World : Type := {
  files : gmap str File;
  can_write : str -> bool;          (* whether [open(path, "wb")] succeeds *)
  markup_error : Message -> bool    (* whether the console raises
                                       [MarkupError] on the message *)
}.

(** The messages into which text from outside is interpolated: a path, a
    query, the text of a library's exception, the prompt's answer, or the
    string that [int] rejected.  The markup of the other messages is
    fixed but for integers and holds no closing tag; the console has
    nothing to refuse in it. *)
Definition interpolates_text (m : Message) : bool :=
  match m with
  | FileNotFound _ | ErrorOpening _ | Searching _ _ _ | SavedAs _
  | RangeError (InvalidLiteral _) => true
  | _ => false
  end.

(** Whether [console.print] raises on a message instead of printing it. *)
Definition rejected (w : World) (m : Message) : bool :=
  interpolates_text m && markup_error w m.

(** How a run ends: the function returns, [sys.exit(code)] is called, or
    an exception nobody catches ends the process. *)
Inductive Status : Type :=
  | Returned
  | Exit (code : Z)
  | Uncaught.

Definition exit_code (s : Status) : Z :=
  match s with
  | Returned => 0
  | Exit code => code
  | Uncaught => 1
  end.

Record Run : Type := { console : list Message; status : Status; world : World }.

(** [console.print(m); sys.exit(1)]: when the console raises on [m],
    nothing is printed and the exception ends the process; this is also
    so inside an [except] block. *)
Definition report_and_exit (w : World) (m : Message) : Run :=
  if rejected w m
  then {| console := []; status := Uncaught; world := w |}
  else {| console := [m]; status := Exit 1; world := w |}.

(** [l[i]]: negative indices count from the end, anything outside the list
    raises [IndexError] (here: no value). *)
Definition getitem {A} (l : list A) (i : Z) : option A :=
  let n := Z.of_nat (length l) in
  let j := if i <? 0 then n + i else i in
  if (0 <=? j) && (j <? n) then l !! Z.to_nat j else None.

(** [range(a, b)]. *)
Definition range (a b : Z) : list Z := seqZ a (b - a).

(** [for i in idx: body], threading the loop's state; the loop stops at the
    first iteration that raises. *)
Fixpoint for_each {S} (body : S -> Z -> option S) (s : S) (idx : list Z)
  : option S :=
  match idx with
  | [] => Some s
  | i :: rest => s' ← body s i; for_each body s' rest
  end.

(** [reader.pages[i].extract_text() or ""]. *)
Definition page_text (p : Page) : str := default [] (extract_text p).

(** One iteration of the search loop. *)
Definition search_step (pages : list Page) (normalized_query : str)
  (matches : list Z) (i : Z) : option (list Z) :=
  p ← getitem pages i;
  let text := page_text p in
  Some (if contains normalized_query (normalize (Some text))
        then matches ++ [i + 1] else matches).

(** The list [matches] at the end of the loop of [search_pdf]. *)
Definition search_matches (pages : list Page) (query : str) : option (list Z) :=
  let total_pages := Z.of_nat (length pages) in
  let normalized_query := normalize (Some query) in
  for_each (search_step pages normalized_query) [] (range 0 total_pages).

(** [search_pdf(pdf_path, query)]. *)
Definition search_pdf (w : World) (pdf_path query : str) : Run :=
  match files w !! pdf_path with
  | None => report_and_exit w (FileNotFound pdf_path)
  | Some (OtherFile error) => report_and_exit w (ErrorOpening error)
  | Some LockedPdf => {| console := []; status := Uncaught; world := w |}
  | Some (PdfFile pages) =>
      let total_pages := Z.of_nat (length pages) in
      let banner := Searching query pdf_path total_pages in
      if rejected w banner
      then {| console := []; status := Uncaught; world := w |}
      else
        match search_matches pages query with
        | None => {| console := [banner]; status := Uncaught; world := w |}
        | Some matches =>
            let report :=
              match matches with
              | [] => NotFound
              | _ :: _ => FoundOnPages matches
              end in
            {| console := [banner; report]; status := Returned; world := w |}
        end
  end.

(** One iteration of the extraction loop: [writer.add_page(reader.pages[i])]. *)
Definition add_page_step (pages : list Page) (writer : list Page) (i : Z)
  : option (list Page) :=
  p ← getitem pages i;
  Some (writer ++ [p]).

(** The pages of [writer] at the end of the loop of [split_pdf]. *)
Definition extract_pages (pages : list Page) (start end_ : Z)
  : option (list Page) :=
  for_each (add_page_step pages) [] (range (start - 1) end_).

(** The f-string that names the output file. *)
Definition output_file (output_name : str) (start end_ : Z) : str :=
  output_name ++ lit "_p_" ++ str_of_int start ++ lit "-"
  ++ str_of_int end_ ++ lit ".pdf".

(** The file system once [writer] has been written to [output]. *)
Definition written (w : World) (output : str) (writer : list Page) : World :=
  {| files := <[output := PdfFile writer]> (files w);
     can_write := can_write w;
     markup_error := markup_error w |}.

(** [split_pdf(pdf_path, range_str)]; [answer] is what the prompt for the
    new file name returns.  The file is written before its name and size
    are reported: when the console raises on that last message, the file
    is there all the same. *)
Definition split_pdf (w : World) (answer : str) (pdf_path range_str : str)
  : Run :=
  match files w !! pdf_path with
  | None => report_and_exit w (FileNotFound pdf_path)
  | Some (OtherFile error) => report_and_exit w (ErrorOpening error)
  | Some LockedPdf => {| console := []; status := Uncaught; world := w |}
  | Some (PdfFile pages) =>
      let total_pages := Z.of_nat (length pages) in
      match parse_range range_str total_pages with
      | Raise e => report_and_exit w (RangeError e)
      | Ok (start, end_) =>
          let output := output_file answer start end_ in
          match extract_pages pages start end_ with
          | None =>
              {| console := [Splitting start end_]; status := Uncaught;
                 world := w |}
          | Some writer =>
              if can_write w output then
                if rejected w (SavedAs output)
                then {| console := [Splitting start end_];
                        status := Uncaught;
                        world := written w output writer |}
                else {| console := [Splitting start end_; SavedAs output];
                        status := Returned;
                        world := written w output writer |}
              else
                {| console := [Splitting start end_]; status := Uncaught;
                   world := w |}
          end
      end
  end.

(** *** The command line *)

(** The namespace [parse_args] answers: the sub-command, if one was given,
    and the attributes its sub-parser sets. *)
Record Namespace : Type := {
  command : option str;
  pdf : option str;
  query : option str;
  range_arg : option str
}.

Inductive Parsed : Type :=
  | Args (ns : Namespace)
  | ParserExit (code : Z) (msg : Message).

(** An argument that does not begin with the option prefix. *)
Definition plain (a : str) : bool := negb (startswith (lit "-") a).

(** [parser.parse_args()] for the parser that [main] builds: an optional
    sub-command out of [search] and [split], each with two positional
    arguments.  [argparse] ends the process with status 2 on a first
    argument that is no sub-command and on a wrong number of arguments.
    Command lines in which an option string takes part (a first argument,
    or an argument of a sub-command, that begins with "-") are outside the
    fragment modelled here: the answer is [None]. *)
Definition parse_args (argv : list str) : option Parsed :=
  match argv with
  | [] =>
      Some (Args {| command := None; pdf := None; query := None;
                    range_arg := None |})
  | c :: args =>
      if negb (plain c) then None
      else if bool_decide (c = lit "search") then
        if forallb plain args then
          Some match args with
               | [p; q] => Args {| command := Some c; pdf := Some p;
                                   query := Some q; range_arg := None |}
               | _ => ParserExit 2 (UsageError (lit "search"))
               end
        else None
      else if bool_decide (c = lit "split") then
        if forallb plain args then
          Some match args with
               | [p; r] => Args {| command := Some c; pdf := Some p;
                                   query := None; range_arg := Some r |}
               | _ => ParserExit 2 (UsageError (lit "split"))
               end
        else None
      else Some (ParserExit 2 (UsageError c))
  end.

(** [main()], on the arguments after the program name. *)
Definition main (w : World) (answer : str) (argv : list str) : option Run :=
  parsed ← parse_args argv;
  Some match parsed with
       | ParserExit code msg =>
           {| console := [msg]; status := Exit code; world := w |}
       | Args args =>
           if bool_decide (command args = Some (lit "search")) then
             match pdf args, query args with
             | Some p, Some q => search_pdf w p q
             | _, _ => {| console := []; status := Uncaught; world := w |}
             end
           else if bool_decide (command args = Some (lit "split")) then
             match pdf args, range_arg args with
             | Some p, Some r => split_pdf w answer p r
             | _, _ => {| console := []; status := Uncaught; world := w |}
             end
           else {| console := [Help]; status := Returned; world := w |}
       end.

(** ** The specification's vocabulary *)

(** [needle] occurs in [hay] as a substring. *)
Definition substring (needle hay : str) : Prop :=
  exists pre post, hay = pre ++ needle ++ post.

Definition all_space (s : str) : Prop := Forall (fun c => isspace c = true) s.

(** [s] neither begins nor ends with whitespace. *)
Definition trimmed (s : str) : Prop :=
  (forall c, head s = Some c -> isspace c = false) /\
  (forall c, last s = Some c -> isspace c = false).

(** [t] is [s] with every run of whitespace collapsed to one space: a
    character that is no whitespace is kept, and a maximal run of
    whitespace becomes a single space. *)
Inductive Collapsed : str -> str -> Prop :=
  | Collapsed_nil : Collapsed [] []
  | Collapsed_keep c s t :
      isspace c = false -> Collapsed s t -> Collapsed (c :: s) (c :: t)
  | Collapsed_run ws s t :
      ws <> [] -> all_space ws ->
      (forall c, head s = Some c -> isspace c = false) ->
      Collapsed s t -> Collapsed (ws ++ s) (Latin " " :: t).

(** [u] is [t] without its leading and trailing whitespace. *)
Definition Trimmed_of (t u : str) : Prop :=
  exists l r, t = l ++ u ++ r /\ all_space l /\ all_space r /\ trimmed u.

(** The letters of the alphabet that have a small form other than
    themselves, by code point, each with the code points of that form:
    A-Z, the capitals of Latin-1, and U+0130. *)
Definition small_forms : list (N * list N) :=
  [ (65, [97]); (66, [98]); (67, [99]); (68, [100]); (69, [101]);
    (70, [102]); (71, [103]); (72, [104]); (73, [105]); (74, [106]);
    (75, [107]); (76, [108]); (77, [109]); (78, [110]); (79, [111]);
    (80, [112]); (81, [113]); (82, [114]); (83, [115]); (84, [116]);
    (85, [117]); (86, [118]); (87, [119]); (88, [120]); (89, [121]);
    (90, [122]); (192, [224]); (193, [225]); (194, [226]); (195, [227]);
    (196, [228]); (197, [229]); (198, [230]); (199, [231]); (200, [232]);
    (201, [233]); (202, [234]); (203, [235]); (204, [236]); (205, [237]);
    (206, [238]); (207, [239]); (208, [240]); (209, [241]); (210, [242]);
    (211, [243]); (212, [244]); (213, [245]); (214, [246]); (216, [248]);
    (217, [249]); (218, [250]); (219, [251]); (220, [252]); (221, [253]);
    (222, [254]); (304, [105; 775]) ]%N.

(** The small form of a code point: the entry of the table, or the code
    point itself when it has none. *)
Fixpoint small_form (table : list (N * list N)) (n : N) : list N :=
  match table with
  | [] => [n]
  | (k, v) :: rest => if (k =? n)%N then v else small_form rest n
  end.

(** [out] is [u] in lower case: character by character, [u] with every
    character replaced by its small form. *)
Inductive Lowercased : str -> str -> Prop :=
  | Lowercased_nil : Lowercased [] []
  | Lowercased_cons c ds u out :
      ord <$> ds = small_form small_forms (ord c) ->
      Lowercased u out -> Lowercased (c :: u) (ds ++ out).

(** Normalisation as the specification words it: collapse the runs of
    whitespace, trim, lowercase; nothing for an empty or absent input. *)
Definition normalize_spec (text : option str) (out : str) : Prop :=
  match text with
  | None => out = []
  | Some s => exists t u, Collapsed s t /\ Trimmed_of t u /\ Lowercased u out
  end.

(** The shape of a normalised string as claimed: no capital letter, no
    whitespace at either end, no two whitespace characters next to each
    other, and no whitespace character other than the space. *)
Definition no_upper (s : str) : Prop := Forall (fun c => isupper c = false) s.

Definition no_adjacent_space (s : str) : Prop :=
  forall i c d, s !! i = Some c -> s !! S i = Some d ->
    ~ (isspace c = true /\ isspace d = true).

Definition only_plain_space (s : str) : Prop :=
  Forall (fun c => isspace c = true -> c = Latin " ") s.

Definition normal_form (s : str) : Prop :=
  no_upper s /\ trimmed s /\ no_adjacent_space s /\ only_plain_space s.

(** The shape a normalised string has: as above, but for the letters only
    that every character is its own small form, which leaves room for a
    capital that has no small form. *)
Definition in_lower_case (s : str) : Prop :=
  Forall (fun c => small_form small_forms (ord c) = [ord c]) s.

Definition normal_shape (s : str) : Prop :=
  in_lower_case s /\ trimmed s /\ no_adjacent_space s /\ only_plain_space s.


(** The invariants of a page range of a document of [total] pages. *)
Definition valid_range (start end_ total : Z) : Prop :=
  1 <= start /\ 1 <= end_ /\ start <= end_ /\ end_ <= total.

(** The shape the collapsing scanner produces: whitespace only as single
    spaces, and none at the front when [after_space] holds. *)
Fixpoint tidy (after_space : bool) (s : str) : bool :=
  match s with
  | [] => true
  | c :: r =>
      if isspace c
      then negb after_space && bool_decide (c = Latin " ") && tidy true r
      else tidy false r
  end.

(** Whether the page at index [i] passes the test of the search loop. *)
Definition page_hit (pages : list Page) (normalized_query : str) (i : Z)
  : bool :=
  match getitem pages i with
  | Some p => contains normalized_query (normalize (Some (page_text p)))
  | None => false
  end.

(** Page [n] of a document, counting from 1 as the user does. *)
Definition page_no (doc : list Page) (n : Z) : option Page :=
  if 1 <=? n then doc !! Z.to_nat (n - 1) else None.

(** [s] is the decimal numeral of [n], as [str] prints a page number:
    digits only, no leading zero, and [int] reads it back as [n]. *)
Definition decimal_numeral (n : Z) (s : str) : Prop :=
  int s = Some n
  /\ Forall (fun c => is_Some (digit_val c)) s
  /\ (head s = Some (Latin "0") -> s = [Latin "0"]).

(** A world for the examples: the given files, every path writable, and a
    console that raises on the messages listed. *)
Definition world_of (fs : gmap str File) (refused : list Message) : World :=
  {| files := fs;
     can_write := fun _ => true;
     markup_error := fun m => existsb (fun r => bool_decide (r = m)) refused |}.

(** ** Examples *)

Example normalize_ex1 :
  normalize (Some (lit "  Hello   World  ")) = lit "hello world".
Proof. reflexivity. Qed.

(** NEL, "A", NO-BREAK SPACE, TAB, "A" with grave, space: the Latin-1
    whitespace collapses too and the accented capital is lowered. *)
Example normalize_ex2 :
  normalize (Some [Latin (ascii_of_N 133); Latin "A"; Latin (ascii_of_N 160);
                   Latin (ascii_of_N 9); Latin (ascii_of_N 192); Latin " "])
  = [Latin "a"; Latin " "; Latin (ascii_of_N 224)].
Proof. reflexivity. Qed.

(** Beyond Latin-1: U+0130 becomes two characters, U+03D2 stays. *)
Example normalize_ex3 :
  normalize (Some [CapitalIDot; Latin " "; Latin " "; UpsilonHook])
  = [Latin "i"; CombiningDot; Latin " "; UpsilonHook].
Proof. reflexivity. Qed.

Example int_ex1 : int (lit " +1_0 ") = Some 10 /\ int (lit "1__0") = None
  /\ int (lit "") = None /\ int (lit "-0") = Some 0 /\ int (lit "007") = Some 7.
Proof. repeat split; reflexivity. Qed.

Example str_of_int_ex : str_of_int 40 = lit "40" /\ str_of_int 0 = lit "0"
  /\ str_of_int (-105) = lit "-105".
Proof. repeat split; vm_compute; reflexivity. Qed.

Example split_ex :
  split_char (Latin "-") (lit "1-2-3") = [lit "1"; lit "2"; lit "3"]
  /\ split_char (Latin "-") (lit "-") = [[]; []]
  /\ split_char (Latin "-") (lit "ab") = [lit "ab"].
Proof. repeat split; reflexivity. Qed.

Example parse_range_ex :
  parse_range (lit " 1 - 2 ") 5 = Ok (1, 2)
  /\ parse_range (lit "1-2-3") 5 = Raise (UnpackMismatch 3)
  /\ parse_range (lit "-5") 5 = Raise (InvalidLiteral [])
  /\ parse_range (lit "a-b") 5 = Raise (InvalidLiteral (lit "a")).
Proof. repeat split; reflexivity. Qed.

Example output_file_ex : output_file (lit "out") 10 40 = lit "out_p_10-40.pdf".
Proof. vm_compute. reflexivity. Qed.

(** ** Characters *)

Section characters.

Local Ltac by_cases c :=
  destruct c as [[[] [] [] [] [] [] [] []]| | | |]; vm_compute;
  first [reflexivity | discriminate | (intros; discriminate) | tauto].

(* For a goal [Forall P (lower_char c)], possibly under a hypothesis on
   the class of [c]: the list is computed, not the predicate. *)
Local Ltac by_cases_forall c :=
  destruct c as [[[] [] [] [] [] [] [] []]| | | |]; intros;
  first
    [ match goal with H : _ = _ |- _ => vm_compute in H; discriminate H end
    | repeat (apply Forall_cons_2; [reflexivity|]); apply Forall_nil_2 ].

Lemma ord_Latin_bound a : (N_of_ascii a < 256)%N.
Proof. apply N_ascii_bounded. Qed.

Lemma ord_inj c d : ord c = ord d -> c = d.
Proof.
  destruct c as [a| | | |], d as [b| | | |]; simpl; intros H;
    try reflexivity; try discriminate H;
    try (pose proof (ord_Latin_bound a); lia);
    try (pose proof (ord_Latin_bound b); lia).
  f_equal. rewrite <- (ascii_N_embedding a), <- (ascii_N_embedding b).
  congruence.
Qed.

Lemma lower_char_nonempty c : lower_char c <> [].
Proof. by_cases c. Qed.

(** Lowering keeps whitespace as it is and makes none. *)
Lemma lower_char_space c : isspace c = true -> lower_char c = [c].
Proof. by_cases c. Qed.

Lemma lower_char_nonspace c :
  isspace c = false -> Forall (fun d => isspace d = false) (lower_char c).
Proof. by_cases_forall c. Qed.

(** What lowering produces, lowering leaves alone. *)
Lemma lower_char_stable c :
  Forall (fun d => lower_char d = [d]) (lower_char c).
Proof. by_cases_forall c. Qed.

(** [lower_char] is the table of small forms. *)
Lemma lower_char_small_form c :
  ord <$> lower_char c = small_form small_forms (ord c).
Proof. by_cases c. Qed.

Lemma lower_nil : lower [] = [].
Proof. reflexivity. Qed.

Lemma lower_cons c s : lower (c :: s) = lower_char c ++ lower s.
Proof. reflexivity. Qed.

Lemma lower_app s t : lower (s ++ t) = lower s ++ lower t.
Proof. unfold lower. apply bind_app. Qed.

Lemma lower_fixed s : Forall (fun c => lower_char c = [c]) s -> lower s = s.
Proof.
  induction 1 as [|c s Hc _ IH]; [reflexivity|].
  rewrite lower_cons, Hc, IH. reflexivity.
Qed.

Lemma lower_stable s : Forall (fun d => lower_char d = [d]) (lower s).
Proof.
  induction s as [|c s IH]; [constructor|].
  rewrite lower_cons. apply Forall_app. split; [apply lower_char_stable|exact IH].
Qed.

Lemma lower_idem s : lower (lower s) = lower s.
Proof. apply lower_fixed, lower_stable. Qed.

Lemma lower_all_space s : all_space s -> lower s = s.
Proof.
  intros Hs. apply lower_fixed. eapply Forall_impl; [exact Hs|].
  intros c Hc. apply lower_char_space, Hc.
Qed.

Lemma lower_no_space s :
  Forall (fun c => isspace c = false) s ->
  Forall (fun c => isspace c = false) (lower s).
Proof.
  induction 1 as [|c s Hc _ IH]; [constructor|].
  rewrite lower_cons. apply Forall_app. split; [|exact IH].
  apply lower_char_nonspace, Hc.
Qed.

Lemma int_isspace_isspace c : int_isspace c = true -> isspace c = true.
Proof. by_cases c. Qed.

Lemma dash_not_space :
  isspace (Latin "-") = false /\ int_isspace (Latin "-") = false.
Proof. split; reflexivity. Qed.

End characters.

(** ** Stripping *)

Section skipping.

Variable f : char -> bool.
Implicit Types s l r : str.

Lemma lskip_split s :
  exists l, s = l ++ lskip f s /\ Forall (fun c => f c = true) l
            /\ forall c, head (lskip f s) = Some c -> f c = false.
Proof.
  induction s as [|c s (l & Hs & Hl & Hh)]; simpl.
  - exists []. split; [reflexivity|]. split; [constructor|]. intros c [=].
  - destruct (f c) eqn:Hc.
    + exists (c :: l). split; [simpl; congruence|]. split; [|exact Hh].
      constructor; assumption.
    + exists []. split; [reflexivity|]. split; [constructor|].
      simpl. intros c' [= <-]. exact Hc.
Qed.

Lemma lskip_all l s :
  Forall (fun c => f c = true) l -> lskip f (l ++ s) = lskip f s.
Proof.
  induction 1 as [|c l Hc _ IH]; simpl; [reflexivity|]. rewrite Hc. exact IH.
Qed.

Lemma lskip_id s : (forall c, head s = Some c -> f c = false) -> lskip f s = s.
Proof.
  destruct s as [|c s]; simpl; [reflexivity|]. intros H.
  rewrite (H c eq_refl). reflexivity.
Qed.

Lemma rskip_split s :
  exists r, s = rskip f s ++ r /\ Forall (fun c => f c = true) r
            /\ forall c, last (rskip f s) = Some c -> f c = false.
Proof.
  unfold rskip. destruct (lskip_split (reverse s)) as (l & Hs & Hl & Hh).
  exists (reverse l). split; [|split].
  - rewrite <- reverse_app, <- Hs, reverse_involutive. reflexivity.
  - apply Forall_reverse, Hl.
  - intros c. rewrite last_reverse. apply Hh.
Qed.

Lemma rskip_all s r :
  Forall (fun c => f c = true) r -> rskip f (s ++ r) = rskip f s.
Proof.
  intros Hr. unfold rskip. rewrite reverse_app, lskip_all; [reflexivity|].
  apply Forall_reverse, Hr.
Qed.

Lemma rskip_id s : (forall c, last s = Some c -> f c = false) -> rskip f s = s.
Proof.
  intros H. unfold rskip. rewrite lskip_id.
  - apply reverse_involutive.
  - intros c. rewrite head_reverse. apply H.
Qed.

End skipping.

Section stripping.

Implicit Types s t u l r : str.

Lemma lstrip_split s :
  exists l, s = l ++ lstrip s /\ all_space l
            /\ forall c, head (lstrip s) = Some c -> isspace c = false.
Proof. exact (lskip_split isspace s). Qed.

Lemma lstrip_all_space l s : all_space l -> lstrip (l ++ s) = lstrip s.
Proof. exact (lskip_all isspace l s). Qed.

Lemma lstrip_id s :
  (forall c, head s = Some c -> isspace c = false) -> lstrip s = s.
Proof. exact (lskip_id isspace s). Qed.

Lemma rstrip_split s :
  exists r, s = rstrip s ++ r /\ all_space r
            /\ forall c, last (rstrip s) = Some c -> isspace c = false.
Proof. exact (rskip_split isspace s). Qed.

Lemma rstrip_all_space s r : all_space r -> rstrip (s ++ r) = rstrip s.
Proof. exact (rskip_all isspace s r). Qed.

Lemma rstrip_id s :
  (forall c, last s = Some c -> isspace c = false) -> rstrip s = s.
Proof. exact (rskip_id isspace s). Qed.

Lemma strip_trimmed u : trimmed u -> strip u = u.
Proof.
  intros [Hh Hl]. unfold strip. rewrite (lstrip_id u Hh). apply rstrip_id, Hl.
Qed.

Lemma all_space_strip l : all_space l -> strip l = [].
Proof.
  intros Hl. unfold strip.
  rewrite <- (app_nil_r l), lstrip_all_space by assumption. reflexivity.
Qed.

(** Stripping undoes any padding with whitespace. *)
Lemma strip_padding l u r :
  all_space l -> all_space r -> trimmed u -> strip (l ++ u ++ r) = u.
Proof.
  intros Hl Hr [Hh Hlast]. unfold strip. rewrite lstrip_all_space by assumption.
  destruct u as [|c u].
  - simpl. rewrite <- (app_nil_r r), lstrip_all_space by assumption. reflexivity.
  - rewrite (lstrip_id ((c :: u) ++ r)).
    + rewrite rstrip_all_space by assumption. apply rstrip_id, Hlast.
    + simpl. intros c' [= <-]. apply Hh. reflexivity.
Qed.

Lemma strip_is_trimmed t : trimmed (strip t).
Proof.
  unfold strip. destruct (lstrip_split t) as (l & _ & _ & Hh).
  destruct (rstrip_split (lstrip t)) as (r & Hr & _ & Hl).
  split; [|exact Hl].
  intros c Hc. apply Hh. rewrite Hr.
  destruct (rstrip (lstrip t)); [discriminate|exact Hc].
Qed.

Lemma strip_split t :
  exists l r, t = l ++ strip t ++ r /\ all_space l /\ all_space r.
Proof.
  unfold strip. destruct (lstrip_split t) as (l & Ht & Hl & _).
  destruct (rstrip_split (lstrip t)) as (r & Hr & Hrs & _).
  exists l, r. split; [|split; assumption]. rewrite <- Hr. exact Ht.
Qed.

End stripping.

(** ** Collapsing whitespace *)

Section collapsing.

Implicit Types s t u l r ws : str.

Lemma sub_ws_tidy b s : tidy b (sub_ws_from b s) = true.
Proof.
  revert b. induction s as [|c s IH]; intros b; simpl; [reflexivity|].
  destruct (isspace c) eqn:Hc.
  - destruct b; simpl; [apply IH|]. rewrite IH. reflexivity.
  - simpl. rewrite Hc. apply IH.
Qed.

Lemma tidy_sub_ws b t : tidy b t = true -> sub_ws_from b t = t.
Proof.
  revert b. induction t as [|c t IH]; intros b; simpl; [reflexivity|].
  destruct (isspace c) eqn:Hc.
  - destruct b; simpl; [discriminate|].
    case_bool_decide as Hsp; simpl; [|discriminate].
    intros Ht. rewrite (IH true Ht). congruence.
  - intros Ht. rewrite (IH false Ht). reflexivity.
Qed.

Lemma tidy_weaken b t : tidy b t = true -> tidy false t = true.
Proof.
  destruct t as [|c t]; simpl; [reflexivity|].
  destruct (isspace c); [|trivial]. destruct b; simpl; [discriminate|trivial].
Qed.

Lemma tidy_head t c : tidy true t = true -> head t = Some c -> isspace c = false.
Proof.
  destruct t as [|d t]; simpl; [discriminate|]. intros Ht [= <-].
  destruct (isspace d); [discriminate|reflexivity].
Qed.

Lemma tidy_app_l b t r : tidy b (t ++ r) = true -> tidy b t = true.
Proof.
  revert b. induction t as [|c t IH]; intros b; simpl; [reflexivity|].
  destruct (isspace c).
  - intros [[-> ->]%andb_true_iff Ht]%andb_true_iff. simpl. eapply IH, Ht.
  - apply IH.
Qed.

Lemma tidy_no_space_app b d t :
  Forall (fun c => isspace c = false) d -> d <> [] ->
  tidy b (d ++ t) = tidy false t.
Proof.
  intros Hd. revert b. induction Hd as [|c d Hc _ IH]; intros b Hne;
    [congruence|].
  simpl. rewrite Hc. destruct d as [|c' d]; [reflexivity|].
  apply IH. discriminate.
Qed.

Lemma tidy_lower b t : tidy b (lower t) = tidy b t.
Proof.
  revert b. induction t as [|c t IH]; intros b; [reflexivity|].
  rewrite lower_cons. destruct (isspace c) eqn:Hc.
  - rewrite (lower_char_space c Hc). simpl. rewrite Hc, IH. reflexivity.
  - rewrite tidy_no_space_app
      by (apply lower_char_nonspace, Hc || apply lower_char_nonempty).
    simpl. rewrite Hc. apply IH.
Qed.

(** After a match has begun the scanner skips the rest of the run. *)
Lemma sub_ws_true_lstrip s : sub_ws_from true s = sub_ws_from false (lstrip s).
Proof.
  induction s as [|c s IH]; simpl; [reflexivity|].
  destruct (isspace c) eqn:Hc; [exact IH|]. simpl. rewrite Hc. reflexivity.
Qed.

(** The regular expression's reading of the scanner: a whitespace
    character starts a match that extends over the whole run. *)
Lemma re_sub_ws_match c s :
  isspace c = true -> re_sub_ws (c :: s) = Latin " " :: re_sub_ws (lstrip s).
Proof.
  intros Hc. unfold re_sub_ws. simpl. rewrite Hc, sub_ws_true_lstrip. reflexivity.
Qed.

Lemma re_sub_ws_keep c s :
  isspace c = false -> re_sub_ws (c :: s) = c :: re_sub_ws s.
Proof. intros Hc. unfold re_sub_ws. simpl. rewrite Hc. reflexivity. Qed.

Lemma re_sub_ws_run ws s :
  ws <> [] -> all_space ws ->
  (forall c, head s = Some c -> isspace c = false) ->
  re_sub_ws (ws ++ s) = Latin " " :: re_sub_ws s.
Proof.
  intros Hne Hws Hs. destruct ws as [|c ws]; [congruence|].
  apply Forall_cons in Hws as [Hc Hws]. simpl.
  rewrite re_sub_ws_match by assumption.
  rewrite lstrip_all_space by assumption. rewrite lstrip_id by assumption.
  reflexivity.
Qed.

Lemma lstrip_re_sub_ws s : lstrip (re_sub_ws s) = sub_ws_from true s.
Proof.
  unfold re_sub_ws. destruct s as [|c s]; simpl; [reflexivity|].
  destruct (isspace c) eqn:Hc; simpl.
  - apply lstrip_id. intros d. apply tidy_head, sub_ws_tidy.
  - rewrite Hc. reflexivity.
Qed.

Lemma collapsed_re_sub_ws s : Collapsed s (re_sub_ws s).
Proof.
  remember (length s) as n eqn:Hn. revert s Hn.
  induction n as [n IH] using lt_wf_ind. intros [|c s] Hn.
  - constructor.
  - destruct (isspace c) eqn:Hc.
    + rewrite re_sub_ws_match by assumption.
      destruct (lstrip_split s) as (l & Hs & Hl & Hh).
      rewrite Hs at 1. change (c :: l ++ lstrip s) with ((c :: l) ++ lstrip s).
      constructor; [discriminate|constructor; assumption|exact Hh|].
      apply (IH (length (lstrip s))); [|reflexivity].
      subst n. rewrite Hs at 2. simpl. rewrite length_app. lia.
    + rewrite re_sub_ws_keep by assumption. constructor; [assumption|].
      apply (IH (length s)); [subst n; simpl; lia|reflexivity].
Qed.

Lemma collapsed_unique s t : Collapsed s t -> t = re_sub_ws s.
Proof.
  induction 1 as [|c s t Hc _ IH|ws s t Hne Hws Hs _ IH].
  - reflexivity.
  - rewrite re_sub_ws_keep by assumption. congruence.
  - rewrite re_sub_ws_run by assumption. congruence.
Qed.

Lemma trimmed_of_strip t u : Trimmed_of t u <-> u = strip t.
Proof.
  split.
  - intros (l & r & -> & Hl & Hr & Hu). symmetry. apply strip_padding; assumption.
  - intros ->. destruct (strip_split t) as (l & r & Ht & Hl & Hr).
    exists l, r. repeat split; try assumption; apply strip_is_trimmed.
Qed.

End collapsing.

(** ** Normalisation *)

Section normalisation.

Implicit Types s t u : str.

Lemma head_app_elem (d t : str) x : d <> [] -> head (d ++ t) = Some x -> x ∈ d.
Proof. destruct d as [|c d]; [congruence|]. intros _ [= <-]. left. Qed.

Lemma last_app_elem (t d : str) x : d <> [] -> last (t ++ d) = Some x -> x ∈ d.
Proof.
  intros Hne. rewrite last_app. destruct (last d) as [y|] eqn:Hd.
  - intros [= <-]. apply last_Some in Hd as [d' ->].
    rewrite elem_of_app. right. left.
  - apply last_None in Hd. congruence.
Qed.

Lemma trimmed_lower u : trimmed u -> trimmed (lower u).
Proof.
  intros [Hh Hl]. split; intros x.
  - destruct u as [|c u]; [discriminate|]. rewrite lower_cons. intros Hx.
    apply head_app_elem in Hx; [|apply lower_char_nonempty].
    pose proof (lower_char_nonspace c (Hh c eq_refl)) as Hns.
    rewrite Forall_forall in Hns. apply Hns, Hx.
  - destruct (last u) as [c|] eqn:Hc.
    + apply last_Some in Hc as [u' ->]. rewrite lower_app. intros Hx.
      change (lower [c]) with (lower_char c ++ []) in Hx.
      rewrite app_nil_r in Hx.
      apply last_app_elem in Hx; [|apply lower_char_nonempty].
      assert (isspace c = false) as Hcs by (apply Hl; reflexivity).
      pose proof (lower_char_nonspace c Hcs) as Hns.
      rewrite Forall_forall in Hns. apply Hns, Hx.
    + apply last_None in Hc as ->. discriminate.
Qed.

Lemma small_form_fixed c :
  small_form small_forms (ord c) = [ord c] <-> lower_char c = [c].
Proof.
  rewrite <- lower_char_small_form. split.
  - destruct (lower_char c) as [|d [|d' l]]; try discriminate.
    intros [= ->%ord_inj]. reflexivity.
  - intros ->. reflexivity.
Qed.

Lemma in_lower_case_stable u :
  in_lower_case u <-> Forall (fun c => lower_char c = [c]) u.
Proof.
  unfold in_lower_case. rewrite !Forall_forall.
  split; intros H c Hc; apply small_form_fixed, H, Hc.
Qed.

Lemma lower_nil_inv u : lower u = [] -> u = [].
Proof.
  destruct u as [|c u]; [reflexivity|]. rewrite lower_cons.
  intros [H _]%app_eq_nil. destruct (lower_char_nonempty c H).
Qed.

Lemma lowercased_lower u out : Lowercased u out <-> out = lower u.
Proof.
  split.
  - induction 1 as [|c ds u out Hds _ IH]; [reflexivity|].
    rewrite lower_cons, IH. f_equal.
    rewrite <- lower_char_small_form in Hds.
    revert Hds. generalize (lower_char c). clear.
    induction ds as [|d ds IH]; intros [|e l]; try discriminate; [reflexivity|].
    intros [= ->%ord_inj Hl]. f_equal. apply IH, Hl.
  - intros ->. induction u as [|c u IH]; [constructor|].
    rewrite lower_cons. constructor; [apply lower_char_small_form|exact IH].
Qed.

Lemma normalize_unfold s : normalize (Some s) = lower (strip (re_sub_ws s)).
Proof. destruct s; reflexivity. Qed.

Lemma normalize_scan s :
  normalize (Some s) = lower (rstrip (sub_ws_from true s)).
Proof.
  rewrite normalize_unfold. unfold strip. rewrite lstrip_re_sub_ws. reflexivity.
Qed.

Lemma normalize_tidy x : tidy true (normalize x) = true.
Proof.
  destruct x as [s|]; [|reflexivity]. rewrite normalize_scan, tidy_lower.
  destruct (rstrip_split (sub_ws_from true s)) as (r & Hr & _).
  apply (tidy_app_l true _ r). rewrite <- Hr. apply sub_ws_tidy.
Qed.

Lemma normalize_trimmed x : trimmed (normalize x).
Proof.
  destruct x as [s|].
  - rewrite normalize_unfold. apply trimmed_lower, strip_is_trimmed.
  - split; intros c [=].
Qed.

Lemma normalize_stable x : Forall (fun c => lower_char c = [c]) (normalize x).
Proof.
  destruct x as [s|]; [|constructor]. rewrite normalize_unfold.
  apply lower_stable.
Qed.

(** A string of the normalised shape is left alone. *)
Lemma normalize_fixed u :
  tidy true u = true -> trimmed u ->
  Forall (fun c => lower_char c = [c]) u -> normalize (Some u) = u.
Proof.
  intros Ht Htr Hup. rewrite normalize_unfold. unfold re_sub_ws.
  rewrite (tidy_sub_ws false u (tidy_weaken true u Ht)).
  rewrite (strip_trimmed u Htr). apply lower_fixed, Hup.
Qed.

Lemma tidy_only_plain_space b s : tidy b s = true -> only_plain_space s.
Proof.
  unfold only_plain_space. revert b.
  induction s as [|c s IH]; intros b; simpl; [constructor|].
  destruct (isspace c) eqn:Hc.
  - intros [[_ Hsp%bool_decide_eq_true]%andb_true_iff Ht]%andb_true_iff.
    constructor; [intros _; exact Hsp | eapply IH, Ht].
  - intros Ht. constructor; [congruence | eapply IH, Ht].
Qed.

Lemma tidy_no_adjacent_space b s : tidy b s = true -> no_adjacent_space s.
Proof.
  unfold no_adjacent_space. revert b.
  induction s as [|c0 s IH]; intros b Ht i c d Hi HSi; [discriminate|].
  simpl in Ht. destruct i as [|i]; simpl in Hi, HSi.
  - injection Hi as <-. intros [Hc Hd]. rewrite Hc in Ht.
    apply andb_true_iff in Ht as [_ Ht].
    rewrite <- head_lookup in HSi. rewrite (tidy_head s d Ht HSi) in Hd.
    discriminate.
  - destruct (isspace c0).
    + apply andb_true_iff in Ht as [_ Ht]. exact (IH true Ht i c d Hi HSi).
    + exact (IH false Ht i c d Hi HSi).
Qed.

Lemma normalize_all_space s : all_space s -> normalize (Some s) = [].
Proof.
  intros Hs. rewrite normalize_scan.
  assert (sub_ws_from true s = []) as ->; [|reflexivity].
  induction Hs as [|c s Hc _ IH]; simpl; [reflexivity|]. rewrite Hc. exact IH.
Qed.

Lemma normalize_empty_all_space s : normalize (Some s) = [] -> all_space s.
Proof.
  rewrite normalize_scan. intros H%lower_nil_inv.
  destruct (rstrip_split (sub_ws_from true s)) as (r & Hr & Hsp & _).
  rewrite H in Hr. simpl in Hr. rewrite <- Hr in Hsp. clear H Hr r.
  induction s as [|c s IH]; [constructor|]. simpl in Hsp.
  destruct (isspace c) eqn:Hc.
  - constructor; [exact Hc | exact (IH Hsp)].
  - apply Forall_cons in Hsp as [Hc' _]. congruence.
Qed.

Lemma normalize_shape x : normal_shape (normalize x).
Proof.
  split; [apply in_lower_case_stable, normalize_stable|].
  split; [apply normalize_trimmed|]. split.
  - apply (tidy_no_adjacent_space true), normalize_tidy.
  - apply (tidy_only_plain_space true), normalize_tidy.
Qed.

End normalisation.

(** C5.  Normalisation does what the specification words.  The result is
    the input with every run of whitespace collapsed to one space, then
    without leading and trailing whitespace, then in lower case, where
    lower case is read off the table of small forms; it is the only
    string of which that can be said.  An absent and an empty input both
    give the empty string.  On " Hello,\tWORLD " with a capital U+0130
    in front, the three steps can be seen at work. *)
Theorem normalize_meets_spec :
  (forall text out, normalize_spec text out <-> out = normalize text)
  /\ normalize None = [] /\ normalize (Some []) = []
  /\ normalize (Some (CapitalIDot :: lit " Hello," ++ [Latin (ascii_of_N 9)]
                      ++ lit " WORLD "))
     = Latin "i" :: CombiningDot :: lit " hello, world".
Proof.
  split; [|repeat split; reflexivity].
  intros [s|] out; unfold normalize_spec; [|reflexivity].
  rewrite normalize_unfold. split.
  - intros (t & u & Hc & Ht & Hl).
    apply collapsed_unique in Hc as ->. apply trimmed_of_strip in Ht as ->.
    apply lowercased_lower, Hl.
  - intros ->. exists (re_sub_ws s), (strip (re_sub_ws s)).
    split; [apply collapsed_re_sub_ws|]. split.
    + apply trimmed_of_strip. reflexivity.
    + apply lowercased_lower. reflexivity.
Qed.

(** C6.  Normalisation is idempotent: normalising a normalised string
    changes nothing. *)
Theorem normalize_idempotent :
  forall x, normalize (Some (normalize x)) = normalize x.
Proof.
  intros x. apply normalize_fixed.
  - apply normalize_tidy.
  - apply normalize_trimmed.
  - apply normalize_stable.
Qed.

(** Against C10 as worded: the capital letter U+03D2 has no lower-case
    form, [str.lower] leaves it as it is, and so the normalised string
    holds a capital letter. *)
Lemma normalize_keeps_capital :
  normalize (Some [UpsilonHook]) = [UpsilonHook]
  /\ isupper UpsilonHook = true
  /\ ~ normal_form (normalize (Some [UpsilonHook])).
Proof.
  split; [reflexivity|]. split; [reflexivity|].
  intros [Hup _]. apply Forall_cons in Hup as [Hup _]. discriminate Hup.
Qed.

(** C10, as the code has it.  Every normalised string is in lower case in
    the sense that each of its characters is its own small form (a
    capital letter stays only when it has no small form), has no
    whitespace at its ends, no two whitespace characters next to each
    other and no whitespace other than the space.  The two strings that an
    iteration of the search loop compares are of that shape: the loop of
    the search runs its step with the normalised query, and the test of
    the step is whether that occurs in the normalised text of the page. *)
Theorem normalize_normal_shape :
  (forall x, normal_shape (normalize x))
  /\ (forall pages query,
        search_matches pages query
        = for_each (search_step pages (normalize (Some query))) []
            (range 0 (Z.of_nat (length pages))))
  /\ (forall pages query matches i,
        match getitem pages i with
        | Some p =>
            search_step pages (normalize (Some query)) matches i
            = Some (if contains (normalize (Some query))
                                (normalize (Some (page_text p)))
                    then matches ++ [i + 1] else matches)
            /\ normal_shape (normalize (Some query))
            /\ normal_shape (normalize (Some (page_text p)))
        | None => search_step pages (normalize (Some query)) matches i = None
        end).
Proof.
  split; [apply normalize_shape|]. split; [reflexivity|].
  intros pages query matches i. unfold search_step. destruct (getitem pages i) as [p|]; [|reflexivity].
  split; [reflexivity|]. split; apply normalize_shape.
Qed.
(** ** Substrings *)

Section substrings.

Implicit Types p s needle hay : str.

Lemma startswith_prefix p s : startswith p s = true <-> exists r, s = p ++ r.
Proof.
  revert s. induction p as [|a p IH]; intros s; simpl.
  - split; [exists s; reflexivity | reflexivity].
  - destruct s as [|b s].
    + split; [discriminate | intros (r & [=])].
    + rewrite andb_true_iff, bool_decide_eq_true, IH. split.
      * intros [-> (r & ->)]. exists r. reflexivity.
      * intros (r & [= -> ->]). split; [reflexivity | exists r; reflexivity].
Qed.

Lemma contains_unfold needle hay :
  contains needle hay =
  startswith needle hay
  || match hay with [] => false | _ :: r => contains needle r end.
Proof. destruct hay; reflexivity. Qed.

Lemma contains_substring needle hay :
  contains needle hay = true <-> substring needle hay.
Proof.
  unfold substring. split.
  - induction hay as [|c hay IH]; rewrite contains_unfold, orb_true_iff.
    + intros [(r & ->)%startswith_prefix|[=]]. exists [], r. reflexivity.
    + intros [(r & ->)%startswith_prefix|(pre & post & ->)%IH].
      * exists [], r. reflexivity.
      * exists (c :: pre), post. reflexivity.
  - intros (pre & post & ->). induction pre as [|c pre IH].
    + rewrite contains_unfold, orb_true_iff. left.
      apply startswith_prefix. exists post. reflexivity.
    + change ((c :: pre) ++ needle ++ post) with (c :: pre ++ needle ++ post).
      rewrite contains_unfold, orb_true_iff. right. exact IH.
Qed.


Lemma contains_char c s : contains [c] s = true <-> c ∈ s.
Proof.
  rewrite contains_substring. unfold substring. split.
  - intros (pre & post & ->). rewrite elem_of_app. right. left.
  - intros (pre & post & ->)%list_elem_of_split. exists pre, post. reflexivity.
Qed.

End substrings.

(** ** The loops *)

Section loops.

Lemma getitem_lookup {A} (l : list A) (i : Z) :
  0 <= i < Z.of_nat (length l) -> getitem l i = l !! Z.to_nat i.
Proof.
  intros Hi. unfold getitem.
  destruct (Z.ltb_spec i 0) as [?|_]; [lia|].
  destruct (Z.leb_spec 0 i) as [_|?]; [|lia].
  destruct (Z.ltb_spec i (Z.of_nat (length l))) as [_|?]; [|lia]. reflexivity.
Qed.

Lemma getitem_is_Some {A} (l : list A) (i : Z) :
  0 <= i < Z.of_nat (length l) -> is_Some (getitem l i).
Proof.
  intros Hi. rewrite getitem_lookup by assumption.
  apply lookup_lt_is_Some. lia.
Qed.

Lemma range_in a b i : i ∈ range a b <-> a <= i < b.
Proof. unfold range. rewrite elem_of_seqZ. lia. Qed.



Lemma search_step_hit pages nq acc i :
  0 <= i < Z.of_nat (length pages) ->
  search_step pages nq acc i =
  Some (if page_hit pages nq i then acc ++ [i + 1] else acc).
Proof.
  intros Hi. unfold search_step, page_hit.
  destruct (getitem_is_Some pages i Hi) as [p ->]. reflexivity.
Qed.

(** The search loop is a filter over the page indices. *)
Lemma for_each_search pages nq idx acc :
  Forall (fun i => 0 <= i < Z.of_nat (length pages)) idx ->
  for_each (search_step pages nq) acc idx =
  Some (acc ++ ((fun i => i + 1) <$>
                filter (fun i => page_hit pages nq i = true) idx)).
Proof.
  intros Hidx. revert acc.
  induction Hidx as [|i idx Hi _ IH]; intros acc; simpl.
  - rewrite app_nil_r. reflexivity.
  - rewrite filter_cons, (search_step_hit pages nq acc i Hi). simpl.
    destruct (page_hit pages nq i) eqn:Hc.
    + rewrite IH, decide_True by reflexivity.
      rewrite fmap_cons, <- app_assoc. reflexivity.
    + rewrite IH, decide_False by discriminate. reflexivity.
Qed.

Lemma search_matches_filter pages query :
  search_matches pages query =
  Some ((fun i => i + 1) <$>
        filter (fun i => page_hit pages (normalize (Some query)) i = true)
               (range 0 (Z.of_nat (length pages)))).
Proof.
  unfold search_matches. rewrite for_each_search; [reflexivity|].
  apply Forall_forall. intros i Hi%range_in. exact Hi.
Qed.

(** The extraction loop copies [k] pages from index [a] on. *)
Lemma for_each_add_page pages (k a : nat) acc :
  (a + k <= length pages)%nat ->
  for_each (add_page_step pages) acc (seqZ (Z.of_nat a) (Z.of_nat k))
  = Some (acc ++ take k (drop a pages)).
Proof.
  revert a acc. induction k as [|k IH]; intros a acc Hk.
  - rewrite seqZ_nil by lia. simpl. rewrite app_nil_r. reflexivity.
  - rewrite seqZ_cons by lia.
    destruct (lookup_lt_is_Some_2 pages a) as [p Hp]; [lia|].
    assert (add_page_step pages acc (Z.of_nat a) = Some (acc ++ [p])) as Hstep.
    { unfold add_page_step. rewrite getitem_lookup by lia.
      rewrite Nat2Z.id, Hp. reflexivity. }
    simpl. rewrite Hstep. simpl.
    replace (Z.succ (Z.of_nat a)) with (Z.of_nat (S a)) by lia.
    replace (Z.pred (Z.of_nat (S k))) with (Z.of_nat k) by lia.
    rewrite IH by lia. rewrite (drop_S pages p a Hp), <- app_assoc. reflexivity.
Qed.

Lemma extract_pages_slice pages start end_ :
  valid_range start end_ (Z.of_nat (length pages)) ->
  extract_pages pages start end_
  = Some (take (Z.to_nat (end_ - start + 1)) (drop (Z.to_nat (start - 1)) pages)).
Proof.
  intros (H1 & H2 & H3 & H4). unfold extract_pages, range.
  replace (start - 1) with (Z.of_nat (Z.to_nat (start - 1))) at 1 by lia.
  replace (end_ - (start - 1)) with (Z.of_nat (Z.to_nat (end_ - start + 1))) by lia.
  rewrite for_each_add_page by lia. reflexivity.
Qed.

End loops.
(** ** Search *)







(** ** Parsing a page range *)

Section splitting.

Variable sep : char.
Implicit Types s a b : str.

Lemma split_char_nonempty s : split_char sep s <> [].
Proof.
  destruct s as [|c s]; simpl; [discriminate|].
  case_bool_decide; [discriminate|]. destruct (split_char sep s); discriminate.
Qed.

Lemma split_char_no_sep s : (sep ∉ s) -> split_char sep s = [s].
Proof.
  induction s as [|c s IH]; simpl; [reflexivity|].
  intros [Hc Hs]%not_elem_of_cons. rewrite bool_decide_false by congruence.
  rewrite (IH Hs). reflexivity.
Qed.

Lemma split_char_sep a b :
  (sep ∉ a) -> split_char sep (a ++ sep :: b) = a :: split_char sep b.
Proof.
  induction a as [|c a IH]; simpl.
  - intros _. rewrite bool_decide_true by reflexivity. reflexivity.
  - intros [Hc Ha]%not_elem_of_cons. rewrite bool_decide_false by congruence.
    rewrite (IH Ha). reflexivity.
Qed.

Lemma split_char_inv s a rest :
  split_char sep s = a :: rest ->
  (sep ∉ a) /\ (rest = [] /\ s = a
              \/ exists b, s = a ++ sep :: b /\ rest = split_char sep b).
Proof.
  revert a rest. induction s as [|c s IH]; intros a rest; simpl.
  - intros [= <- <-]. split; [apply not_elem_of_nil | left; split; reflexivity].
  - case_bool_decide as Hc.
    + intros [= <- <-]. split; [apply not_elem_of_nil|].
      right. exists s. subst c. split; reflexivity.
    + destruct (split_char sep s) as [|w ws] eqn:Hsplit.
      { destruct (split_char_nonempty s Hsplit). }
      intros [= <- <-]. destruct (IH w ws eq_refl) as [Hw Hrest].
      split; [apply not_elem_of_cons; split; [congruence|exact Hw]|].
      destruct Hrest as [[-> ->]|(b & -> & ->)].
      * left. split; reflexivity.
      * right. exists b. split; reflexivity.
Qed.

Lemma split_char_two s a b :
  split_char sep s = [a; b] <-> s = a ++ sep :: b /\ (sep ∉ a) /\ (sep ∉ b).
Proof.
  split.
  - intros [Ha [[[=] _]|(b' & -> & Hb')]]%split_char_inv.
    symmetry in Hb'. apply split_char_inv in Hb' as [Hb [[_ ->]|(? & _ & H)]].
    + repeat split; assumption.
    + destruct (split_char_nonempty _ (eq_sym H)).
  - intros (-> & Ha & Hb). rewrite split_char_sep, split_char_no_sep by assumption.
    reflexivity.
Qed.

End splitting.

Section parsing.

Implicit Types r a b : str.

Lemma parse_range_unfold r total :
  parse_range r total =
  if contains (lit "-") r then
    match split_char (Latin "-") r with
    | [a; b] =>
        match int a, int b with
        | Some start, Some end_ =>
            if (start <? 1) || (end_ <? 1) then Raise PagesBelowOne
            else if start >? end_ then Raise StartAfterEnd
            else if end_ >? total then Raise (ExceedsLength total)
            else Ok (start, end_)
        | Some _, None => Raise (InvalidLiteral b)
        | None, _ => Raise (InvalidLiteral a)
        end
    | parts => Raise (UnpackMismatch (length parts))
    end
  else Raise NotStartEnd.
Proof.
  unfold parse_range. destruct (contains (lit "-") r); [|reflexivity]. simpl.
  destruct (split_char (Latin "-") r) as [|a [|b [|c rest]]]; try reflexivity.
  unfold to_int. simpl. destruct (int a); [|reflexivity]. simpl.
  destruct (int b); reflexivity.
Qed.

Lemma contains_dash r : contains (lit "-") r = true <-> Latin "-" ∈ r.
Proof. apply contains_char. Qed.

(** When [parse_range] answers a range: the string is one piece, a hyphen,
    one piece, both pieces without hyphen and accepted by [int], and the
    two values satisfy the invariants of a page range. *)
Lemma parse_range_Ok r total start end_ :
  parse_range r total = Ok (start, end_) <->
  exists a b, r = a ++ Latin "-" :: b /\ (Latin "-" ∉ a) /\ (Latin "-" ∉ b)
              /\ int a = Some start /\ int b = Some end_
              /\ valid_range start end_ total.
Proof.
  rewrite parse_range_unfold. unfold valid_range. split.
  - destruct (contains (lit "-") r); [|discriminate].
    destruct (split_char (Latin "-") r) as [|a [|b [|c rest]]] eqn:Hsplit;
      try discriminate.
    apply split_char_two in Hsplit as (-> & Ha & Hb).
    destruct (int a) as [x|] eqn:Hia; [|discriminate].
    destruct (int b) as [y|] eqn:Hib; [|discriminate].
    destruct (Z.ltb_spec x 1); [discriminate|].
    destruct (Z.ltb_spec y 1); [discriminate|]. simpl.
    destruct (Z.gtb_spec x y); [discriminate|].
    destruct (Z.gtb_spec y total); [discriminate|].
    intros [= <- <-]. exists a, b.
    split; [reflexivity|]. split; [exact Ha|]. split; [exact Hb|].
    split; [exact Hia|]. split; [exact Hib|]. lia.
  - intros (a & b & -> & Ha & Hb & Hia & Hib & H1 & H2 & H3 & H4).
    assert (contains (lit "-") (a ++ Latin "-" :: b) = true) as ->.
    { apply contains_dash. rewrite elem_of_app. right. left. }
    rewrite (proj2 (split_char_two (Latin "-") _ a b)) by (repeat split; assumption).
    rewrite Hia, Hib.
    destruct (Z.ltb_spec start 1); [lia|].
    destruct (Z.ltb_spec end_ 1); [lia|]. simpl.
    destruct (Z.gtb_spec start end_); [lia|].
    destruct (Z.gtb_spec end_ total); [lia|]. reflexivity.
Qed.

End parsing.

(** ** Integer literals *)

Section integers.

Implicit Types s r : str.

Lemma digit_val_range c d : digit_val c = Some d -> 0 <= d < 10.
Proof.
  unfold digit_val.
  destruct (N.leb_spec 48 (ord c)); [|discriminate].
  destruct (N.leb_spec (ord c) 57); [|discriminate].
  simpl. intros [= <-]. lia.
Qed.

Lemma digit_val_not_space c d : digit_val c = Some d -> int_isspace c = false.
Proof.
  destruct c as [[[] [] [] [] [] [] [] []]| | | |]; vm_compute;
    first [reflexivity | discriminate].
Qed.

Lemma digit_val_digit_char d : 0 <= d < 10 -> digit_val (digit_char d) = Some d.
Proof.
  intros Hd.
  assert (d = 0 \/ d = 1 \/ d = 2 \/ d = 3 \/ d = 4 \/ d = 5 \/ d = 6
          \/ d = 7 \/ d = 8 \/ d = 9) as Hcases by lia.
  repeat (destruct Hcases as [->|Hcases]; [reflexivity|]). subst d. reflexivity.
Qed.

Lemma int_signed_unsigned c r :
  c <> Latin "+" -> c <> Latin "-" -> int_signed (c :: r) = int_digits true 0 (c :: r).
Proof.
  intros Hp Hm.
  destruct c as [[[] [] [] [] [] [] [] []]| | | |]; try reflexivity; congruence.
Qed.

(** What [int_digits] accepts holds digits and underscores only, and its
    value is not negative. *)
Lemma int_digits_Some b v r m :
  int_digits b v r = Some m -> 0 <= v -> 0 <= m /\ (Latin "-" ∉ r).
Proof.
  revert b v. induction r as [|c r IH]; intros b v; simpl.
  - destruct b; [discriminate|]. intros [= <-] Hv.
    split; [exact Hv | apply not_elem_of_nil].
  - destruct (digit_val c) as [d|] eqn:Hd.
    + intros Hm Hv. pose proof (digit_val_range c d Hd) as Hr.
      destruct (IH false (10 * v + d) Hm) as [H0 Hnot]; [lia|].
      split; [exact H0|]. apply not_elem_of_cons. split; [|exact Hnot].
      intros <-. discriminate Hd.
    + case_bool_decide as Hc; simpl; [|discriminate].
      destruct b; simpl; [discriminate|]. intros Hm Hv.
      destruct (IH true v Hm Hv) as [H0 Hnot].
      split; [exact H0|]. apply not_elem_of_cons. split; [|exact Hnot].
      subst c. discriminate.
Qed.

Lemma int_strip_split s :
  exists l r, s = l ++ int_strip s ++ r
              /\ Forall (fun c => int_isspace c = true) l
              /\ Forall (fun c => int_isspace c = true) r.
Proof.
  unfold int_strip. destruct (lskip_split int_isspace s) as (l & Hs & Hl & _).
  destruct (rskip_split int_isspace (lskip int_isspace s)) as (r & Hr & Hrs & _).
  exists l, r. split; [|split; assumption]. rewrite <- Hr. exact Hs.
Qed.

Lemma int_space_no_dash l :
  Forall (fun c => int_isspace c = true) l -> Latin "-" ∉ l.
Proof.
  intros Hl Hin. rewrite Forall_forall in Hl. specialize (Hl _ Hin).
  discriminate Hl.
Qed.

(** A literal with a positive value holds no hyphen. *)
Lemma int_positive_no_dash s n : int s = Some n -> 1 <= n -> Latin "-" ∉ s.
Proof.
  unfold int. intros Hint Hn.
  destruct (int_strip_split s) as (l & r & Hs & Hl & Hr).
  assert (Latin "-" ∉ int_strip s) as Hmid.
  { destruct (int_strip s) as [|c t]; [apply not_elem_of_nil|].
    destruct (decide (c = Latin "+")) as [->|Hp].
    - simpl in Hint. apply int_digits_Some in Hint as [_ Hnot]; [|lia].
      apply not_elem_of_cons. split; [discriminate|exact Hnot].
    - destruct (decide (c = Latin "-")) as [->|Hm].
      + simpl in Hint. destruct (int_digits true 0 t) as [m|] eqn:Hd; [|discriminate].
        apply int_digits_Some in Hd as [H0 _]; [|lia].
        simpl in Hint. injection Hint as <-. lia.
      + rewrite int_signed_unsigned in Hint by assumption.
        apply int_digits_Some in Hint as [_ Hnot]; [exact Hnot|lia]. }
  rewrite Hs, !not_elem_of_app. repeat split;
    [apply int_space_no_dash, Hl | exact Hmid | apply int_space_no_dash, Hr].
Qed.

(** *** Printing and reading back *)

Lemma int_digits_digits_of fuel n acc b :
  (0 < fuel)%nat -> 0 <= n < 2 ^ Z.of_nat fuel ->
  int_digits b 0 (digits_of fuel n acc) = int_digits false n acc.
Proof.
  revert n acc b. induction fuel as [|fuel IH]; intros n acc b Hfuel Hn; [lia|].
  simpl. pose proof (Z.mod_pos_bound n 10 ltac:(lia)) as Hmod.
  destruct (Z.ltb_spec n 10) as [Hlt|Hge].
  - simpl. rewrite Z.mod_small by lia. rewrite digit_val_digit_char by lia.
    reflexivity.
  - assert (0 <= n `div` 10 < 2 ^ Z.of_nat fuel) as Hdiv.
    { split; [apply Z.div_pos; lia|]. apply Z.div_lt_upper_bound; [lia|].
      rewrite Nat2Z.inj_succ, Z.pow_succ_r in Hn by lia. lia. }
    assert (0 < fuel)%nat as Hpos.
    { destruct fuel; [|lia]. simpl in Hn. lia. }
    rewrite (IH _ _ _ Hpos Hdiv). simpl.
    rewrite digit_val_digit_char by lia. f_equal.
    pose proof (Z.div_mod n 10 ltac:(lia)). lia.
Qed.

Lemma digits_of_Forall (P : char -> Prop) fuel n acc :
  (forall d, 0 <= d < 10 -> P (digit_char d)) ->
  Forall P acc -> Forall P (digits_of fuel n acc).
Proof.
  intros HP. revert n acc. induction fuel as [|fuel IH]; intros n acc Hacc;
    simpl; [exact Hacc|].
  assert (Forall P (digit_char (n `mod` 10) :: acc)) as Hacc'.
  { constructor; [|exact Hacc]. apply HP, Z.mod_pos_bound. lia. }
  destruct (n <? 10); [exact Hacc' | apply IH, Hacc'].
Qed.

Lemma digits_of_nonempty fuel n acc : acc <> [] -> digits_of fuel n acc <> [].
Proof.
  revert n acc. induction fuel as [|fuel IH]; intros n acc Hacc; simpl;
    [exact Hacc|].
  destruct (n <? 10); [discriminate | apply IH; discriminate].
Qed.

Lemma str_of_nonneg_digits n :
  str_of_nonneg n <> []
  /\ Forall (fun c => is_Some (digit_val c)) (str_of_nonneg n).
Proof.
  unfold str_of_nonneg. split.
  - simpl. destruct (n <? 10); [discriminate|].
    apply digits_of_nonempty. discriminate.
  - apply digits_of_Forall; [|constructor].
    intros d Hd. rewrite digit_val_digit_char by assumption. eexists. reflexivity.
Qed.

Lemma int_str_of_nonneg n : 0 <= n -> int (str_of_nonneg n) = Some n.
Proof.
  intros Hn. destruct (str_of_nonneg_digits n) as [Hne Hdig].
  rewrite Forall_forall in Hdig.
  assert (forall c, c ∈ str_of_nonneg n -> int_isspace c = false) as Hsp.
  { intros c [d Hd]%Hdig. exact (digit_val_not_space c d Hd). }
  unfold int, int_strip. rewrite (lskip_id int_isspace (str_of_nonneg n)).
  2:{ intros c (t & Ht)%head_Some. apply Hsp. rewrite Ht. left. }
  rewrite rskip_id.
  2:{ intros c (t & Ht)%last_Some. apply Hsp. rewrite Ht, elem_of_app.
      right. left. }
  destruct (str_of_nonneg n) as [|c t] eqn:Hstr; [congruence|].
  rewrite int_signed_unsigned.
  - rewrite <- Hstr. unfold str_of_nonneg. rewrite int_digits_digits_of.
    + reflexivity.
    + lia.
    + split; [exact Hn|]. destruct (Z.eq_dec n 0) as [->|Hnz]; [simpl; lia|].
      rewrite Nat2Z.inj_succ, Z2Nat.id by apply Z.log2_nonneg.
      apply Z.log2_spec. lia.
  - intros ->. destruct (Hdig (Latin "+")) as [d Hd]; [left|]. discriminate Hd.
  - intros ->. destruct (Hdig (Latin "-")) as [d Hd]; [left|]. discriminate Hd.
Qed.

Lemma int_str_of_int n : 0 <= n -> int (str_of_int n) = Some n.
Proof.
  intros Hn. unfold str_of_int. destruct (Z.ltb_spec n 0); [lia|].
  apply int_str_of_nonneg, Hn.
Qed.

End integers.

(** Every valid page range can be written down: printing the two numbers
    with a hyphen between them gives a string that parses to them. *)
Lemma parse_range_printed start end_ total :
  valid_range start end_ total ->
  parse_range (str_of_int start ++ lit "-" ++ str_of_int end_) total
  = Ok (start, end_).
Proof.
  intros Hv. pose proof Hv as (H1 & H2 & _).
  apply parse_range_Ok. exists (str_of_int start), (str_of_int end_).
  assert (int (str_of_int start) = Some start) as Hs by (apply int_str_of_int; lia).
  assert (int (str_of_int end_) = Some end_) as He by (apply int_str_of_int; lia).
  split; [reflexivity|].
  split; [exact (int_positive_no_dash _ _ Hs H1)|].
  split; [exact (int_positive_no_dash _ _ He H2)|].
  split; [exact Hs|]. split; [exact He|exact Hv].
Qed.

(** C3.  The example ranges of the specification, on a document of 100
    pages: "10-40" parses to (10, 40); "5-3" fails because the start is
    greater than the end; "0-5" because a page is below 1; "10-200"
    because the range exceeds the document; "abc" because it is not in
    start-end format. *)
Theorem parse_range_examples :
  parse_range (lit "10-40") 100 = Ok (10, 40)
  /\ parse_range (lit "5-3") 100 = Raise StartAfterEnd
  /\ parse_range (lit "0-5") 100 = Raise PagesBelowOne
  /\ parse_range (lit "10-200") 100 = Raise (ExceedsLength 100)
  /\ parse_range (lit "abc") 100 = Raise NotStartEnd.
Proof. repeat split; reflexivity. Qed.




(** ** Split *)

Section split.

Implicit Types pages : list Page.

(** The run of [split_pdf] on a document that opens, with a range that
    parses and an output file that can be written: the file is written,
    and the run returns unless the console raises on the last message. *)
Lemma split_pdf_run w answer path r pages start end_ :
  files w !! path = Some (PdfFile pages) ->
  parse_range r (Z.of_nat (length pages)) = Ok (start, end_) ->
  can_write w (output_file answer start end_) = true ->
  split_pdf w answer path r =
  {| console :=
       Splitting start end_
       :: (if rejected w (SavedAs (output_file answer start end_))
           then [] else [SavedAs (output_file answer start end_)]);
     status :=
       (if rejected w (SavedAs (output_file answer start end_))
        then Uncaught else Returned);
     world :=
       written w (output_file answer start end_)
         (take (Z.to_nat (end_ - start + 1))
               (drop (Z.to_nat (start - 1)) pages)) |}.
Proof.
  intros Hfile Hparse Hwrite. unfold split_pdf. rewrite Hfile, Hparse.
  rewrite extract_pages_slice.
  - rewrite Hwrite. destruct (rejected w _); reflexivity.
  - apply parse_range_Ok in Hparse as (a & b & _ & _ & _ & _ & _ & Hv). exact Hv.
Qed.

Lemma slice_length pages start end_ :
  valid_range start end_ (Z.of_nat (length pages)) ->
  Z.of_nat (length (take (Z.to_nat (end_ - start + 1))
                         (drop (Z.to_nat (start - 1)) pages)))
  = end_ - start + 1.
Proof.
  intros (H1 & H2 & H3 & H4). rewrite length_take, length_drop. lia.
Qed.

Lemma slice_page_no pages start end_ k :
  valid_range start end_ (Z.of_nat (length pages)) ->
  1 <= k <= end_ - start + 1 ->
  page_no (take (Z.to_nat (end_ - start + 1))
                (drop (Z.to_nat (start - 1)) pages)) k
  = page_no pages (start + k - 1)
  /\ is_Some (page_no pages (start + k - 1)).
Proof.
  intros (H1 & H2 & H3 & H4) Hk. unfold page_no.
  destruct (Z.leb_spec 1 k); [|lia].
  destruct (Z.leb_spec 1 (start + k - 1)); [|lia].
  rewrite lookup_take_lt by lia. rewrite lookup_drop.
  replace (Z.to_nat (start - 1) + Z.to_nat (k - 1))%nat
    with (Z.to_nat (start + k - 1 - 1)) by lia.
  split; [reflexivity|]. apply lookup_lt_is_Some. lia.
Qed.

(** *** The numerals of the file name *)

Lemma digit_char_zero d : 0 <= d < 10 -> digit_char d = Latin "0" -> d = 0.
Proof.
  intros Hd Heq. pose proof (digit_val_digit_char d Hd) as Hv.
  rewrite Heq in Hv. injection Hv as <-. reflexivity.
Qed.

Lemma digits_of_head fuel n acc :
  (0 < fuel)%nat -> 1 <= n < 2 ^ Z.of_nat fuel ->
  exists d rest, 1 <= d < 10 /\ digits_of fuel n acc = digit_char d :: rest.
Proof.
  revert n acc. induction fuel as [|fuel IH]; intros n acc Hfuel Hn; [lia|].
  simpl. destruct (Z.ltb_spec n 10) as [Hlt|Hge].
  - exists (n `mod` 10), acc. rewrite Z.mod_small by lia.
    split; [lia|reflexivity].
  - assert (1 <= n `div` 10 < 2 ^ Z.of_nat fuel) as Hdiv.
    { split; [apply Z.div_le_lower_bound; lia|].
      apply Z.div_lt_upper_bound; [lia|].
      rewrite Nat2Z.inj_succ, Z.pow_succ_r in Hn by lia. lia. }
    assert (0 < fuel)%nat as Hpos.
    { destruct fuel; [|lia]. simpl in Hdiv. lia. }
    apply IH; assumption.
Qed.

Lemma str_of_int_decimal n : 0 <= n -> decimal_numeral n (str_of_int n).
Proof.
  intros Hn. split; [apply int_str_of_int, Hn|].
  unfold str_of_int. destruct (Z.ltb_spec n 0); [lia|].
  split; [apply str_of_nonneg_digits|].
  destruct (Z.eq_dec n 0) as [->|Hnz]; [intros _; reflexivity|].
  unfold str_of_nonneg.
  destruct (digits_of_head (S (Z.to_nat (Z.log2 n))) n []) as (d & rest & Hd & ->).
  - lia.
  - split; [lia|]. rewrite Nat2Z.inj_succ, Z2Nat.id by apply Z.log2_nonneg.
    apply Z.log2_spec. lia.
  - simpl. intros Hhead.
    assert (digit_char d = Latin "0") as Hz by congruence.
    apply digit_char_zero in Hz; lia.
Qed.

End split.

(** C1.  On a document of N pages, every range with
    1 <= start <= end <= N is the value of some range string, and for every
    range string that validates to it the split writes, where the output
    file can be written, an output document of exactly end - start + 1
    pages whose k-th page is page start + k - 1 of the source: the pages
    start to end, in their order, and no others.  The document is on the
    file system whether or not the console then accepts the message that
    names it; the run returns normally exactly when it does. *)
Theorem split_extracts_range w answer path pages start end_ :
  files w !! path = Some (PdfFile pages) ->
  valid_range start end_ (Z.of_nat (length pages)) ->
  (exists r, parse_range r (Z.of_nat (length pages)) = Ok (start, end_))
  /\ forall r,
       parse_range r (Z.of_nat (length pages)) = Ok (start, end_) ->
       can_write w (output_file answer start end_) = true ->
       exists out,
         files (world (split_pdf w answer path r))
           !! output_file answer start end_ = Some (PdfFile out)
         /\ Z.of_nat (length out) = end_ - start + 1
         /\ (forall k, 1 <= k <= end_ - start + 1 ->
               page_no out k = page_no pages (start + k - 1)
               /\ is_Some (page_no pages (start + k - 1)))
         /\ (status (split_pdf w answer path r) = Returned
             <-> rejected w (SavedAs (output_file answer start end_)) = false).
Proof.
  intros Hfile Hv. split.
  - eexists. apply parse_range_printed, Hv.
  - intros r Hparse Hwrite.
    rewrite (split_pdf_run w answer path r pages start end_ Hfile Hparse Hwrite).
    eexists. split; [apply lookup_insert_eq|].
    split; [apply slice_length, Hv|]. split.
    + intros k Hk. apply slice_page_no; assumption.
    + simpl. destruct (rejected w _); split; intros H;
        first [reflexivity | discriminate H].
Qed.

Lemma split_extracts_range_witness :
  let doc := (fun n => {| extract_text := None; page_obj := N.of_nat n |})
             <$> seq 1 100 in
  let w := world_of {[ lit "in.pdf" := PdfFile doc ]} [] in
  let run := split_pdf w (lit "out") (lit "in.pdf") (lit "10-40") in
  files w !! lit "in.pdf" = Some (PdfFile doc)
  /\ valid_range 10 40 (Z.of_nat (length doc))
  /\ parse_range (lit "10-40") (Z.of_nat (length doc)) = Ok (10, 40)
  /\ exists out,
       files (world run) !! output_file (lit "out") 10 40 = Some (PdfFile out)
       /\ Z.of_nat (length out) = 31
       /\ (forall k, 1 <= k <= 31 ->
             page_no out k = page_no doc (10 + k - 1)
             /\ is_Some (page_no doc (10 + k - 1)))
       /\ (status run = Returned
           <-> rejected w (SavedAs (output_file (lit "out") 10 40)) = false).
Proof.
  intros doc w run.
  assert (files w !! lit "in.pdf" = Some (PdfFile doc)) as Hfile
    by (vm_compute; reflexivity).
  assert (valid_range 10 40 (Z.of_nat (length doc))) as Hv
    by (vm_compute; intuition discriminate).
  assert (parse_range (lit "10-40") (Z.of_nat (length doc)) = Ok (10, 40))
    as Hparse by (vm_compute; reflexivity).
  split; [exact Hfile|]. split; [exact Hv|]. split; [exact Hparse|].
  apply (proj2 (split_extracts_range w (lit "out") (lit "in.pdf") doc 10 40
                  Hfile Hv) (lit "10-40") Hparse).
  reflexivity.
Defined.

(** C7.  The split writes its output to the file named
    [<base>_p_<start>-<end>.pdf]: the answer to the prompt, then "_p_",
    the decimal numeral of the start, a hyphen, the decimal numeral of
    the end, and ".pdf".  After the run that path holds the extracted
    pages and every other path is as it was, whether or not the console
    accepts the message that reports the name.  The extension is always
    "pdf". *)
Theorem split_output_name w answer path r pages start end_ :
  files w !! path = Some (PdfFile pages) ->
  parse_range r (Z.of_nat (length pages)) = Ok (start, end_) ->
  can_write w (output_file answer start end_) = true ->
  exists first last out,
    decimal_numeral start first
    /\ decimal_numeral end_ last
    /\ extract_pages pages start end_ = Some out
    /\ files (world (split_pdf w answer path r))
         !! (answer ++ lit "_p_" ++ first ++ lit "-" ++ last ++ lit ".pdf")
       = Some (PdfFile out)
    /\ forall p,
         p <> answer ++ lit "_p_" ++ first ++ lit "-" ++ last ++ lit ".pdf" ->
         files (world (split_pdf w answer path r)) !! p = files w !! p.
Proof.
  intros Hfile Hparse Hwrite.
  rewrite (split_pdf_run w answer path r pages start end_ Hfile Hparse Hwrite).
  apply parse_range_Ok in Hparse as (a & b & _ & _ & _ & _ & _ & Hv).
  pose proof Hv as (H1 & H2 & _).
  exists (str_of_int start), (str_of_int end_). eexists.
  split; [apply str_of_int_decimal; lia|].
  split; [apply str_of_int_decimal; lia|].
  split; [apply extract_pages_slice, Hv|]. simpl. split.
  - apply lookup_insert_eq.
  - intros p Hp. apply lookup_insert_ne. intros Heq. apply Hp. symmetry.
    exact Heq.
Qed.

Lemma split_output_name_witness :
  let doc := (fun n => {| extract_text := None; page_obj := N.of_nat n |})
             <$> seq 1 100 in
  let w := world_of {[ lit "in.pdf" := PdfFile doc ]} [] in
  let run := split_pdf w (lit "out") (lit "in.pdf") (lit "10-40") in
  is_Some (files (world run) !! lit "out_p_10-40.pdf")
  /\ files (world run) !! lit "in.pdf" = Some (PdfFile doc)
  /\ exists first last out,
       decimal_numeral 10 first
       /\ decimal_numeral 40 last
       /\ extract_pages doc 10 40 = Some out
       /\ files (world run)
            !! (lit "out" ++ lit "_p_" ++ first ++ lit "-" ++ last
                ++ lit ".pdf")
          = Some (PdfFile out)
       /\ forall p,
            p <> lit "out" ++ lit "_p_" ++ first ++ lit "-" ++ last
                 ++ lit ".pdf" ->
            files (world run) !! p = files w !! p.
Proof.
  intros doc w run. split; [vm_compute; eexists; reflexivity|].
  split; [reflexivity|].
  apply (split_output_name w (lit "out") (lit "in.pdf") (lit "10-40") doc 10 40).
  - vm_compute; reflexivity.
  - vm_compute; reflexivity.
  - reflexivity.
Defined.
(** ** The command line *)

(** Against C8 as worded: invoked with the unrecognised command "foo",
    the program does not print the help and does not exit with code zero:
    the argument parser rejects the command and ends the process with
    status 2. *)
Lemma unrecognized_command_exits_2 :
  let w := world_of ∅ [] in
  main w [] [lit "foo"]
  = Some {| console := [UsageError (lit "foo")]; status := Exit 2; world := w |}
  /\ exit_code (Exit 2) <> 0
  /\ Help ∉ [UsageError (lit "foo")].
Proof.
  intros w. split; [reflexivity|]. split; [discriminate|].
  intros [=]%list_elem_of_singleton.
Qed.

(** C8, as the code has it.  Invoked with no arguments the program prints
    the usage help and ends with exit code zero.  Invoked with an
    unrecognised command, that is a first argument that does not begin
    with a hyphen and is neither [search] nor [split], the argument parser
    reports a usage error and ends the process with exit code 2; the help
    is not printed.  (A first argument that begins with a hyphen is an
    option string, not a command.) *)
Theorem cli_without_command w answer :
  (exists run, main w answer [] = Some run
     /\ console run = [Help] /\ exit_code (status run) = 0 /\ world run = w)
  /\ forall c rest,
       plain c = true -> c <> lit "search" -> c <> lit "split" ->
       exists run, main w answer (c :: rest) = Some run
         /\ console run = [UsageError c] /\ exit_code (status run) = 2
         /\ world run = w.
Proof.
  split.
  - eexists. split; [reflexivity|]. repeat split.
  - intros c rest Hplain Hsearch Hsplit. unfold main, parse_args.
    rewrite Hplain. simpl.
    rewrite !bool_decide_false by assumption. simpl.
    eexists. split; [reflexivity|]. repeat split.
Qed.

Lemma cli_without_command_witness :
  let w := world_of ∅ [] in
  (exists run, main w [] [] = Some run
     /\ console run = [Help] /\ exit_code (status run) = 0 /\ world run = w)
  /\ exists run, main w [] [lit "merge"; lit "a.pdf"] = Some run
       /\ console run = [UsageError (lit "merge")]
       /\ exit_code (status run) = 2 /\ world run = w.
Proof.
  intros w. split.
  - apply (proj1 (cli_without_command w [])).
  - apply (proj2 (cli_without_command w []) (lit "merge") [lit "a.pdf"]).
    + reflexivity.
    + discriminate.
    + discriminate.
Defined.

(** * Further properties of the program *)

(** ** Normalisation: what it ignores *)

Section insensitive.

Implicit Types s t l r ws : str.

Lemma sub_ws_no_space_app b d t :
  Forall (fun c => isspace c = false) d -> d <> [] ->
  sub_ws_from b (d ++ t) = d ++ sub_ws_from false t.
Proof.
  intros Hd. revert b. induction Hd as [|c d Hc _ IH]; intros b Hne;
    [congruence|].
  simpl. rewrite Hc. f_equal. destruct d as [|c' d]; [reflexivity|].
  apply IH. discriminate.
Qed.

Lemma sub_ws_lower b s : sub_ws_from b (lower s) = lower (sub_ws_from b s).
Proof.
  revert b. induction s as [|c s IH]; intros b; [reflexivity|].
  rewrite lower_cons. simpl. destruct (isspace c) eqn:Hc.
  - rewrite (lower_char_space c Hc). simpl. rewrite Hc.
    destruct b; [apply IH|]. rewrite lower_cons, IH. reflexivity.
  - rewrite sub_ws_no_space_app
      by (apply lower_char_nonspace, Hc || apply lower_char_nonempty).
    rewrite lower_cons, IH. reflexivity.
Qed.

Lemma strip_lower s : strip (lower s) = lower (strip s).
Proof.
  destruct (strip_split s) as (l & r & Hs & Hl & Hr).
  rewrite Hs at 1. rewrite !lower_app.
  rewrite (lower_all_space l Hl), (lower_all_space r Hr).
  apply strip_padding; [exact Hl | exact Hr |].
  apply trimmed_lower, strip_is_trimmed.
Qed.

Lemma sub_ws_skip_run ws s :
  all_space ws -> sub_ws_from true (ws ++ s) = sub_ws_from true s.
Proof.
  induction 1 as [|c ws Hc _ IH]; simpl; [reflexivity|]. rewrite Hc. exact IH.
Qed.

(** A run of whitespace in front counts for one space, whatever its
    length, and for nothing inside a match. *)
Lemma sub_ws_run b ws s :
  ws <> [] -> all_space ws ->
  sub_ws_from b (ws ++ s)
  = (if b then [] else [Latin " "]) ++ sub_ws_from true s.
Proof.
  intros Hne Hws. destruct ws as [|c ws]; [congruence|].
  apply Forall_cons in Hws as [Hc Hws]. simpl. rewrite Hc.
  rewrite sub_ws_skip_run by assumption. destruct b; reflexivity.
Qed.

Lemma sub_ws_same_runs b t ws ws' s :
  ws <> [] -> all_space ws -> ws' <> [] -> all_space ws' ->
  sub_ws_from b (t ++ ws ++ s) = sub_ws_from b (t ++ ws' ++ s).
Proof.
  intros Hne Hws Hne' Hws'. revert b.
  induction t as [|c t IH]; intros b; simpl.
  - rewrite !sub_ws_run by assumption. reflexivity.
  - destruct (isspace c); [destruct b|]; rewrite IH; reflexivity.
Qed.

Lemma sub_ws_all_space b r : all_space r -> all_space (sub_ws_from b r).
Proof.
  intros Hr. revert b. induction Hr as [|c r Hc _ IH]; intros b; simpl;
    [constructor|].
  rewrite Hc. destruct b; [apply IH|]. constructor; [reflexivity|apply IH].
Qed.

Lemma sub_ws_app_space b s r :
  all_space r ->
  exists t, sub_ws_from b (s ++ r) = sub_ws_from b s ++ t /\ all_space t.
Proof.
  intros Hr. revert b. induction s as [|c s IH]; intros b; simpl.
  - exists (sub_ws_from b r). split; [reflexivity|].
    apply sub_ws_all_space, Hr.
  - destruct (isspace c); [destruct b|].
    + apply IH.
    + destruct (IH true) as (t & -> & Ht). exists t. split; [reflexivity|exact Ht].
    + destruct (IH false) as (t & -> & Ht). exists t. split; [reflexivity|exact Ht].
Qed.

Lemma normalize_padding l s r :
  all_space l -> all_space r ->
  normalize (Some (l ++ s ++ r)) = normalize (Some s).
Proof.
  intros Hl Hr. rewrite !normalize_scan. f_equal.
  rewrite sub_ws_skip_run by assumption.
  destruct (sub_ws_app_space true s r Hr) as (t & -> & Ht).
  apply rstrip_all_space, Ht.
Qed.

Lemma normalize_lower s : normalize (Some (lower s)) = normalize (Some s).
Proof.
  rewrite !normalize_unfold. unfold re_sub_ws.
  rewrite sub_ws_lower, strip_lower. apply lower_idem.
Qed.

(** *** Lengths *)

Lemma sub_ws_length b s : (length (sub_ws_from b s) <= length s)%nat.
Proof.
  revert b. induction s as [|c s IH]; intros b; simpl; [lia|].
  destruct (isspace c); [destruct b|]; simpl.
  - specialize (IH true). lia.
  - specialize (IH true). lia.
  - specialize (IH false). lia.
Qed.

Lemma rstrip_length s : (length (rstrip s) <= length s)%nat.
Proof.
  destruct (rstrip_split s) as (r & Hr & _). rewrite Hr at 2.
  rewrite length_app. lia.
Qed.

Lemma sub_ws_elem b s c : c ∈ sub_ws_from b s -> c ∈ s \/ c = Latin " ".
Proof.
  revert b. induction s as [|d s IH]; intros b; simpl; [intros []%elem_of_nil|].
  destruct (isspace d); [destruct b|].
  - intros [H | H]%IH; [left; right; exact H | right; exact H].
  - intros [-> | [H | H]%IH]%elem_of_cons;
      [right; reflexivity | left; right; exact H | right; exact H].
  - intros [-> | [H | H]%IH]%elem_of_cons;
      [left; left | left; right; exact H | right; exact H].
Qed.

Lemma rstrip_elem s c : c ∈ rstrip s -> c ∈ s.
Proof.
  destruct (rstrip_split s) as (r & Hr & _). rewrite Hr at 2.
  rewrite elem_of_app. tauto.
Qed.

Lemma lower_char_length c :
  (length (lower_char c) <= 2)%nat
  /\ (c <> CapitalIDot -> length (lower_char c) = 1%nat).
Proof.
  destruct c as [a| | | |]; simpl; try (split; [lia|congruence]).
  destruct (isupper (Latin a)); simpl; split; first [lia | reflexivity].
Qed.

Lemma lower_length_double s : (length (lower s) <= 2 * length s)%nat.
Proof.
  induction s as [|c s IH]; [simpl; lia|].
  rewrite lower_cons, length_app. simpl.
  pose proof (proj1 (lower_char_length c)). lia.
Qed.

Lemma lower_length s : (CapitalIDot ∉ s) -> length (lower s) = length s.
Proof.
  induction s as [|c s IH]; [reflexivity|].
  intros [Hc Hs]%not_elem_of_cons. rewrite lower_cons, length_app. simpl.
  rewrite (proj2 (lower_char_length c)) by congruence. rewrite (IH Hs).
  reflexivity.
Qed.

End insensitive.

(** X1.  Whitespace added in front of a string or after it does not
    change what the string normalises to. *)
Theorem normalize_ignores_padding l s r :
  all_space l -> all_space r ->
  normalize (Some (l ++ s ++ r)) = normalize (Some s).
Proof. apply normalize_padding. Qed.

Lemma normalize_ignores_padding_witness :
  normalize (Some (lit "  " ++ lit "a b"
                   ++ [Latin (ascii_of_N 9); Latin (ascii_of_N 160)]))
  = normalize (Some (lit "a b")).
Proof.
  apply (normalize_ignores_padding (lit "  ") (lit "a b")
           [Latin (ascii_of_N 9); Latin (ascii_of_N 160)]).
  - repeat constructor.
  - repeat constructor.
Defined.

(** X2.  Inside a string, a run of whitespace may be replaced by any other
    run of whitespace, of whatever characters and length, without changing
    what the string normalises to. *)
Theorem normalize_ignores_run_length s ws ws' t :
  ws <> [] -> all_space ws -> ws' <> [] -> all_space ws' ->
  normalize (Some (s ++ ws ++ t)) = normalize (Some (s ++ ws' ++ t)).
Proof.
  intros Hne Hws Hne' Hws'. rewrite !normalize_unfold. unfold re_sub_ws.
  rewrite (sub_ws_same_runs false s ws ws' t) by assumption. reflexivity.
Qed.

Lemma normalize_ignores_run_length_witness :
  normalize (Some (lit "a" ++ [Latin (ascii_of_N 10); Latin (ascii_of_N 160)]
                   ++ lit "b"))
  = normalize (Some (lit "a" ++ lit " " ++ lit "b")).
Proof.
  apply (normalize_ignores_run_length (lit "a")
           [Latin (ascii_of_N 10); Latin (ascii_of_N 160)]
           (lit " ") (lit "b")).
  - discriminate.
  - repeat constructor.
  - discriminate.
  - repeat constructor.
Defined.

(** X3.  Normalisation gives the empty string exactly for the strings
    made of whitespace only.  It can make a string longer, but only
    through the capital U+0130, whose lower case is two characters: the
    result is never more than twice as long as the input, and never
    longer than the input when that letter does not occur in it. *)
Theorem normalize_length s :
  (normalize (Some s) = [] <-> all_space s)
  /\ (length (normalize (Some s)) <= 2 * length s)%nat
  /\ ((CapitalIDot ∉ s) -> (length (normalize (Some s)) <= length s)%nat)
  /\ length (normalize (Some [CapitalIDot])) = 2%nat.
Proof.
  split; [split; [apply normalize_empty_all_space | apply normalize_all_space]|].
  assert (length (rstrip (sub_ws_from true s)) <= length s)%nat as Hlen
    by (etrans; [apply rstrip_length | apply sub_ws_length]).
  rewrite normalize_scan. split; [|split; [|reflexivity]].
  - etrans; [apply lower_length_double|]. lia.
  - intros Hs. rewrite lower_length; [exact Hlen|].
    intros [H | H]%rstrip_elem%sub_ws_elem; [exact (Hs H) | discriminate H].
Qed.

Lemma normalize_length_witness :
  (CapitalIDot ∉ lit " Ab  C ")
  /\ (length (normalize (Some (lit " Ab  C "))) <= length (lit " Ab  C "))%nat
  /\ normalize (Some (lit " Ab  C ")) = lit "ab c".
Proof.
  assert (CapitalIDot ∉ lit " Ab  C ") as Hs.
  { intros H. repeat (apply elem_of_cons in H as [H | H]; [discriminate H|]).
    apply elem_of_nil in H. exact H. }
  split; [exact Hs|]. split; [|reflexivity].
  apply (proj1 (proj2 (proj2 (normalize_length (lit " Ab  C "))))), Hs.
Defined.

(** X4.  Normalisation does not see the case of letters: a string and its
    lower-case form normalise to the same string. *)
Theorem normalize_ignores_case s :
  normalize (Some (lower s)) = normalize (Some s).
Proof. apply normalize_lower. Qed.
(** ** Search: further properties *)

Section search_more.

Implicit Types pages : list Page.

(** Membership in the list of matches, by page number. *)
Lemma search_matches_elem pages q matches n :
  search_matches pages q = Some matches ->
  n ∈ matches <->
  exists p, page_no pages n = Some p
            /\ contains (normalize (Some q)) (normalize (Some (page_text p)))
               = true.
Proof.
  rewrite search_matches_filter. intros [= <-].
  rewrite list_elem_of_fmap. unfold page_no. split.
  - intros (i & -> & [Hhit Hi%range_in]%list_elem_of_filter).
    unfold page_hit in Hhit. rewrite getitem_lookup in Hhit by lia.
    destruct (pages !! Z.to_nat i) as [p|] eqn:Hp; [|discriminate].
    exists p. destruct (Z.leb_spec 1 (i + 1)) as [_|?]; [|lia].
    replace (i + 1 - 1) with i by lia. split; [exact Hp|exact Hhit].
  - intros (p & Hp & Hsub). destruct (Z.leb_spec 1 n) as [Hn|?]; [|discriminate].
    pose proof (lookup_lt_Some _ _ _ Hp) as Hlt.
    exists (n - 1). split; [lia|]. apply list_elem_of_filter. split.
    + unfold page_hit. rewrite getitem_lookup by lia. rewrite Hp. exact Hsub.
    + apply range_in. lia.
Qed.

Lemma search_matches_total pages q : is_Some (search_matches pages q).
Proof. rewrite search_matches_filter. eexists. reflexivity. Qed.


End search_more.

(** X5.  How a search ends.  It never touches the file system.  It
    returns normally, with exit code 0, exactly when the path holds a
    document whose pages can be read and the console accepts the banner
    that shows the query; the loop itself never fails.  A missing file and
    a file the library cannot open are reported with one message and exit
    code 1.  A document whose page list cannot be read, and any message
    the console refuses, end the run on an exception nobody catches, with
    nothing printed. *)
Theorem search_pdf_outcome w path q :
  world (search_pdf w path q) = w
  /\ status (search_pdf w path q)
     = match files w !! path with
       | Some (PdfFile pages) =>
           if rejected w (Searching q path (Z.of_nat (length pages)))
           then Uncaught else Returned
       | Some LockedPdf => Uncaught
       | Some (OtherFile error) =>
           if rejected w (ErrorOpening error) then Uncaught else Exit 1
       | None => if rejected w (FileNotFound path) then Uncaught else Exit 1
       end
  /\ match files w !! path with
     | Some (PdfFile pages) =>
         if rejected w (Searching q path (Z.of_nat (length pages)))
         then console (search_pdf w path q) = []
         else exists report,
                console (search_pdf w path q)
                = [Searching q path (Z.of_nat (length pages)); report]
     | Some LockedPdf => console (search_pdf w path q) = []
     | Some (OtherFile error) =>
         console (search_pdf w path q)
         = if rejected w (ErrorOpening error) then [] else [ErrorOpening error]
     | None =>
         console (search_pdf w path q)
         = if rejected w (FileNotFound path) then [] else [FileNotFound path]
     end
  /\ (exit_code (status (search_pdf w path q)) = 0
      <-> exists pages,
            files w !! path = Some (PdfFile pages)
            /\ rejected w (Searching q path (Z.of_nat (length pages))) = false).
Proof.
  unfold search_pdf, report_and_exit.
  destruct (files w !! path) as [[pages| |error]|]; cbv zeta.
  - destruct (search_matches_total pages q) as [m ->].
    destruct (rejected w _) eqn:Hrej; simpl.
    + repeat split; [discriminate|]. intros (pages' & [= <-] & H). congruence.
    + repeat split; [eexists; reflexivity|]. intros _. exists pages.
      split; [reflexivity|exact Hrej].
  - simpl. repeat split; [discriminate|]. intros (pages & [=] & _).
  - destruct (rejected w _); simpl;
      (repeat split; [discriminate|]; intros (pages & [=] & _)).
  - destruct (rejected w _); simpl;
      (repeat split; [discriminate|]; intros (pages & [=] & _)).
Qed.






(** ** Range parsing: further properties *)

Section parse_more.

Implicit Types r a b s : str.

Lemma int_strip_elem c s : c ∈ int_strip s -> c ∈ s.
Proof.
  intros Hc. destruct (int_strip_split s) as (l & r & Hs & _).
  rewrite Hs, !elem_of_app. right. left. exact Hc.
Qed.

(** Without a hyphen there is no way to write a negative number. *)
Lemma int_no_dash_nonneg s x : (Latin "-" ∉ s) -> int s = Some x -> 0 <= x.
Proof.
  unfold int. intros Hdash Hint.
  destruct (int_strip s) as [|c t] eqn:Hstrip; [discriminate|].
  destruct (decide (c = Latin "+")) as [->|Hp].
  - simpl in Hint. apply int_digits_Some in Hint as [H0 _]; [exact H0|lia].
  - destruct (decide (c = Latin "-")) as [->|Hm].
    + destruct Hdash. apply int_strip_elem. rewrite Hstrip. left.
    + rewrite int_signed_unsigned in Hint by assumption.
      apply int_digits_Some in Hint as [H0 _]; [exact H0|lia].
Qed.

Lemma parse_range_split r total a b :
  (Latin "-" ∉ a) -> (Latin "-" ∉ b) -> r = a ++ Latin "-" :: b ->
  parse_range r total =
  match int a, int b with
  | Some start, Some end_ =>
      if (start <? 1) || (end_ <? 1) then Raise PagesBelowOne
      else if start >? end_ then Raise StartAfterEnd
      else if end_ >? total then Raise (ExceedsLength total)
      else Ok (start, end_)
  | Some _, None => Raise (InvalidLiteral b)
  | None, _ => Raise (InvalidLiteral a)
  end.
Proof.
  intros Ha Hb ->. rewrite parse_range_unfold.
  assert (contains (lit "-") (a ++ Latin "-" :: b) = true) as ->.
  { apply contains_dash. rewrite elem_of_app. right. left. }
  rewrite (proj2 (split_char_two (Latin "-") _ a b)) by (repeat split; assumption).
  reflexivity.
Qed.

(** The shapes of a range string, as [parse_range] tells them apart: no
    hyphen, one hyphen between two pieces, or more hyphens. *)
Lemma range_string_cases r :
  contains (lit "-") r = false
  \/ (exists a b, (Latin "-" ∉ a) /\ (Latin "-" ∉ b) /\ r = a ++ Latin "-" :: b)
  \/ (contains (lit "-") r = true
      /\ exists n, n <> 2%nat /\ forall total,
           parse_range r total = Raise (UnpackMismatch n)).
Proof.
  destruct (contains (lit "-") r) eqn:Hdash; [|left; reflexivity]. right.
  destruct (split_char (Latin "-") r) as [|a [|b [|c rest]]] eqn:Hsplit.
  - destruct (split_char_nonempty _ _ Hsplit).
  - right. split; [reflexivity|]. exists 1%nat. split; [lia|]. intros total.
    rewrite parse_range_unfold, Hdash, Hsplit. reflexivity.
  - left. apply split_char_two in Hsplit as (-> & Ha & Hb).
    exists a, b. repeat split; assumption.
  - right. split; [reflexivity|]. exists (S (S (S (length rest)))).
    split; [lia|]. intros total.
    rewrite parse_range_unfold, Hdash, Hsplit. reflexivity.
Qed.

End parse_more.

(** X8.  The error "Pages must be >= 1" is raised exactly when the string
    is two integer literals around one hyphen and one of the two numbers
    is zero.  A negative number never reaches that check: its minus sign
    is taken for the separator. *)
Theorem pages_below_one_only_for_zero r total :
  parse_range r total = Raise PagesBelowOne <->
  exists a b x y, r = a ++ Latin "-" :: b
    /\ (Latin "-" ∉ a) /\ (Latin "-" ∉ b)
    /\ int a = Some x /\ int b = Some y /\ (x = 0 \/ y = 0).
Proof.
  split.
  - intros Hparse.
    destruct (range_string_cases r)
      as [Hno|[(a & b & Ha & Hb & ->)|(_ & n & _ & Hn)]].
    + rewrite parse_range_unfold, Hno in Hparse. discriminate.
    + rewrite (parse_range_split _ total a b Ha Hb eq_refl) in Hparse.
      destruct (int a) as [x|] eqn:Hx; [|discriminate].
      destruct (int b) as [y|] eqn:Hy; [|discriminate].
      pose proof (int_no_dash_nonneg a x Ha Hx).
      pose proof (int_no_dash_nonneg b y Hb Hy).
      exists a, b, x, y. repeat split; try assumption.
      destruct (Z.ltb_spec x 1); [left; lia|].
      destruct (Z.ltb_spec y 1); [right; lia|]. simpl in Hparse.
      destruct (x >? y); [discriminate|].
      destruct (y >? total); discriminate.
    + rewrite Hn in Hparse. discriminate.
  - intros (a & b & x & y & -> & Ha & Hb & Hx & Hy & Hzero).
    rewrite (parse_range_split _ total a b Ha Hb eq_refl), Hx, Hy.
    destruct Hzero as [-> | ->]; [reflexivity|].
    destruct (x <? 1); reflexivity.
Qed.

(** X9.  The page count enters only the last check of [parse_range].  A
    string that parses for one page count parses to the same range for
    every page count that is not below its end, and fails with "range
    exceeds document length" for the others; a string that fails for
    another reason fails in the same way for every page count. *)
Theorem parse_range_other_total r total total' :
  match parse_range r total with
  | Ok (start, end_) =>
      parse_range r total' =
      if end_ >? total' then Raise (ExceedsLength total') else Ok (start, end_)
  | Raise (ExceedsLength _) =>
      exists start end_, total < end_ /\
        parse_range r total' =
        if end_ >? total' then Raise (ExceedsLength total')
        else Ok (start, end_)
  | Raise e => parse_range r total' = Raise e
  end.
Proof.
  destruct (range_string_cases r)
    as [Hno|[(a & b & Ha & Hb & ->)|(_ & n & _ & Hn)]].
  - rewrite !parse_range_unfold, Hno. reflexivity.
  - rewrite !(parse_range_split _ _ a b Ha Hb eq_refl).
    destruct (int a) as [x|]; [|reflexivity].
    destruct (int b) as [y|]; [|reflexivity].
    destruct ((x <? 1) || (y <? 1)); [reflexivity|].
    destruct (x >? y); [reflexivity|].
    destruct (Z.gtb_spec y total); [|reflexivity].
    exists x, y. split; [lia|reflexivity].
  - rewrite !Hn. reflexivity.
Qed.

(** X10.  Printing and parsing a range are inverse to each other: the two
    decimal numerals with a hyphen between them parse back to the range,
    and they do so exactly when the range is valid for the document. *)
Theorem parse_range_round_trip start end_ total :
  parse_range (str_of_int start ++ lit "-" ++ str_of_int end_) total
  = Ok (start, end_)
  <-> valid_range start end_ total.
Proof.
  split.
  - intros (a & b & _ & _ & _ & _ & _ & Hv)%parse_range_Ok. exact Hv.
  - apply parse_range_printed.
Qed.

(** ** Split: further properties *)

Section split_more.

Implicit Types pages : list Page.

Lemma extract_pages_total pages r start end_ :
  parse_range r (Z.of_nat (length pages)) = Ok (start, end_) ->
  extract_pages pages start end_
  = Some (take (Z.to_nat (end_ - start + 1)) (drop (Z.to_nat (start - 1)) pages)).
Proof.
  intros (a & b & _ & _ & _ & _ & _ & Hv)%parse_range_Ok.
  apply extract_pages_slice, Hv.
Qed.

Lemma take_drop_take_drop {A} (l : list A) (a k a' k' : nat) :
  (a' + k' <= k)%nat ->
  take k' (drop a' (take k (drop a l))) = take k' (drop (a + a') l).
Proof.
  intros Hk. apply list_eq. intros i.
  destruct (decide (i < k')%nat) as [Hi|Hi].
  - rewrite !lookup_take_lt by lia. rewrite !lookup_drop.
    rewrite lookup_take_lt by lia. rewrite lookup_drop. f_equal. lia.
  - rewrite !lookup_take_ge by lia. reflexivity.
Qed.

Lemma split_char_first (c : char) (a b a' b' : str) :
  (c ∉ a) -> (c ∉ a') -> a ++ c :: b = a' ++ c :: b' -> a = a' /\ b = b'.
Proof.
  intros Ha Ha' Heq.
  assert (a = a') as <-.
  { pose proof (f_equal (split_char c) Heq) as Hsplit.
    rewrite !split_char_sep in Hsplit by assumption. congruence. }
  split; [reflexivity|]. apply app_inv_head in Heq. congruence.
Qed.

(** Where a run of [split_pdf] leaves the file system. *)
Lemma split_pdf_world w answer path r :
  world (split_pdf w answer path r)
  = match files w !! path with
    | Some (PdfFile pages) =>
        match parse_range r (Z.of_nat (length pages)) with
        | Ok (start, end_) =>
            if can_write w (output_file answer start end_)
            then written w (output_file answer start end_)
                   (take (Z.to_nat (end_ - start + 1))
                         (drop (Z.to_nat (start - 1)) pages))
            else w
        | Raise _ => w
        end
    | _ => w
    end.
Proof.
  unfold split_pdf, report_and_exit.
  destruct (files w !! path) as [[pages| |error]|];
    [|reflexivity|destruct (rejected w _); reflexivity..].
  destruct (parse_range r (Z.of_nat (length pages))) as [[start end_]|e] eqn:Hp;
    [|destruct (rejected w _); reflexivity].
  rewrite (extract_pages_total pages r start end_ Hp).
  destruct (can_write w (output_file answer start end_)); [|reflexivity].
  destruct (rejected w _); reflexivity.
Qed.

End split_more.



(** A file that is written although the run fails: the answer "o[/x]" to
    the prompt makes a file name on which the console raises, after the
    file has been written. *)
Example split_writes_then_raises :
  let doc := [ {| extract_text := Some (lit "one"); page_obj := 1 |} ] in
  let name := lit "o[/x]_p_1-1.pdf" in
  let w := world_of {[ lit "in.pdf" := PdfFile doc ]} [SavedAs name] in
  split_pdf w (lit "o[/x]") (lit "in.pdf") (lit "1-1")
  = {| console := [Splitting 1 1]; status := Uncaught;
       world := written w name doc |}.
Proof. vm_compute. reflexivity. Qed.

(** X12.  A split changes at most one path of the file system, the output
    file it names, and removes none: every path that held a file before
    holds one afterwards. *)
Theorem split_pdf_touches_one_path w answer path r :
  (forall p,
     files (world (split_pdf w answer path r)) !! p = files w !! p
     \/ exists pages start end_,
          files w !! path = Some (PdfFile pages)
          /\ parse_range r (Z.of_nat (length pages)) = Ok (start, end_)
          /\ p = output_file answer start end_)
  /\ dom (files w) ⊆ dom (files (world (split_pdf w answer path r))).
Proof.
  rewrite split_pdf_world.
  destruct (files w !! path) as [[pages| |error]|];
    try (split; [left; reflexivity|reflexivity]).
  destruct (parse_range r (Z.of_nat (length pages))) as [[start end_]|e] eqn:Hp;
    try (split; [left; reflexivity|reflexivity]).
  destruct (can_write w (output_file answer start end_));
    try (split; [left; reflexivity|reflexivity]).
  simpl. split.
  - intros p. destruct (decide (output_file answer start end_ = p)) as [<-|Hne].
    + right. exists pages, start, end_. repeat split; assumption.
    + left. apply lookup_insert_ne, Hne.
  - rewrite dom_insert. set_solver.
Qed.


(** X13.  A document without pages cannot be split: whatever the range
    string, the range is refused, nothing is written and the process ends
    with exit code 1: with the refusal on the console and [sys.exit(1)],
    or, when the console raises on the refusal, with nothing printed and
    on that exception. *)
Theorem split_empty_document w answer path r :
  files w !! path = Some (PdfFile []) ->
  exists e,
    parse_range r 0 = Raise e
    /\ split_pdf w answer path r
       = (if rejected w (RangeError e)
          then {| console := []; status := Uncaught; world := w |}
          else {| console := [RangeError e]; status := Exit 1; world := w |})
    /\ exit_code (status (split_pdf w answer path r)) = 1
    /\ world (split_pdf w answer path r) = w.
Proof.
  intros Hfile. unfold split_pdf, report_and_exit. rewrite Hfile.
  change (Z.of_nat (length (@nil Page))) with 0.
  destruct (parse_range r 0) as [[start end_]|e] eqn:Hp.
  - apply parse_range_Ok in Hp as (a & b & _ & _ & _ & _ & _ & Hv).
    unfold valid_range in Hv. lia.
  - exists e. destruct (rejected w _); repeat split.
Qed.

Lemma split_empty_document_witness :
  let w := world_of {[ lit "empty.pdf" := PdfFile [] ]} [] in
  let run := split_pdf w (lit "out") (lit "empty.pdf") (lit "1-1") in
  run = {| console := [RangeError (ExceedsLength 0)]; status := Exit 1;
           world := w |}
  /\ exists e,
       parse_range (lit "1-1") 0 = Raise e
       /\ run
          = (if rejected w (RangeError e)
             then {| console := []; status := Uncaught; world := w |}
             else {| console := [RangeError e]; status := Exit 1; world := w |})
       /\ exit_code (status run) = 1
       /\ world run = w.
Proof.
  intros w run. split; [reflexivity|].
  apply (split_empty_document w (lit "out") (lit "empty.pdf") (lit "1-1")).
  reflexivity.
Defined.

(** X14.  Splitting with the range from 1 to the number of pages copies
    the document: the output file holds the same pages in the same
    order. *)
Theorem split_whole_document w answer path r pages :
  files w !! path = Some (PdfFile pages) ->
  parse_range r (Z.of_nat (length pages)) = Ok (1, Z.of_nat (length pages)) ->
  can_write w (output_file answer 1 (Z.of_nat (length pages))) = true ->
  files (world (split_pdf w answer path r))
    !! output_file answer 1 (Z.of_nat (length pages))
  = Some (PdfFile pages).
Proof.
  intros Hfile Hparse Hwrite.
  rewrite (split_pdf_run w answer path r pages _ _ Hfile Hparse Hwrite).
  simpl. rewrite lookup_insert_eq. do 2 f_equal.
  replace (Z.to_nat (1 - 1)) with 0%nat by lia. rewrite drop_0.
  apply take_ge. lia.
Qed.

Lemma split_whole_document_witness :
  let doc := [ {| extract_text := Some (lit "one"); page_obj := 1 |};
               {| extract_text := None; page_obj := 2 |};
               {| extract_text := Some (lit "three"); page_obj := 3 |} ] in
  let w := world_of {[ lit "in.pdf" := PdfFile doc ]} [] in
  files (world (split_pdf w (lit "copy") (lit "in.pdf") (lit "1-3")))
    !! lit "copy_p_1-3.pdf"
  = Some (PdfFile doc).
Proof.
  intros doc w.
  apply (split_whole_document w (lit "copy") (lit "in.pdf") (lit "1-3") doc).
  - reflexivity.
  - reflexivity.
  - reflexivity.
Defined.

(** X15.  Extracting from an extract is extracting from the source with
    the range shifted: the pages s' to e' of the pages s to e of a
    document are its pages s + s' - 1 to s + e' - 1. *)
Theorem extract_pages_compose pages s e s' e' out :
  valid_range s e (Z.of_nat (length pages)) ->
  extract_pages pages s e = Some out ->
  valid_range s' e' (Z.of_nat (length out)) ->
  extract_pages out s' e' = extract_pages pages (s + s' - 1) (s + e' - 1).
Proof.
  intros Hv Hout Hv'. rewrite (extract_pages_slice pages s e Hv) in Hout.
  injection Hout as <-.
  pose proof (slice_length pages s e Hv) as Hlen. rewrite Hlen in Hv'.
  destruct Hv as (H1 & H2 & H3 & H4). destruct Hv' as (H1' & H2' & H3' & H4').
  rewrite extract_pages_slice.
  2:{ unfold valid_range. rewrite Hlen. lia. }
  rewrite extract_pages_slice by (unfold valid_range; lia).
  rewrite take_drop_take_drop by lia. f_equal. f_equal; [lia|]. f_equal. lia.
Qed.

Lemma extract_pages_compose_witness :
  let doc := (fun n => {| extract_text := None; page_obj := N.of_nat n |})
             <$> seq 1 10 in
  exists out : list Page,
    extract_pages doc 3 8 = Some out
    /\ extract_pages out 2 4 = extract_pages doc 4 6
    /\ extract_pages out 2 4
       = Some ((fun n => {| extract_text := None; page_obj := n |})
               <$> [4; 5; 6]%N).
Proof.
  intros doc. eexists. split; [reflexivity|]. split; [|reflexivity].
  apply (extract_pages_compose doc 3 8 2 4).
  - vm_compute. intuition discriminate.
  - reflexivity.
  - vm_compute. intuition discriminate.
Defined.

(** X16.  Searching the output of a split finds the matches of the source
    that lie in the range, renumbered from 1: page n of the output matches
    exactly when page start + n - 1 of the source does. *)
Theorem search_after_split pages q start end_ out m_out m_src :
  valid_range start end_ (Z.of_nat (length pages)) ->
  extract_pages pages start end_ = Some out ->
  search_matches out q = Some m_out ->
  search_matches pages q = Some m_src ->
  forall n, n ∈ m_out <-> 1 <= n <= end_ - start + 1 /\ (start + n - 1) ∈ m_src.
Proof.
  intros Hv Hout Hmo Hms n. rewrite (extract_pages_slice pages _ _ Hv) in Hout.
  injection Hout as <-.
  rewrite (search_matches_elem _ q m_out n Hmo).
  rewrite (search_matches_elem _ q m_src (start + n - 1) Hms).
  pose proof (slice_length pages start end_ Hv) as Hlen. split.
  - intros (p & Hp & Hc).
    assert (1 <= n <= end_ - start + 1) as Hn.
    { unfold page_no in Hp. destruct (Z.leb_spec 1 n); [|discriminate].
      apply lookup_lt_Some in Hp. lia. }
    split; [exact Hn|]. exists p. split; [|exact Hc].
    rewrite <- (proj1 (slice_page_no pages start end_ n Hv Hn)). exact Hp.
  - intros [Hn (p & Hp & Hc)]. exists p. split; [|exact Hc].
    rewrite (proj1 (slice_page_no pages start end_ n Hv Hn)). exact Hp.
Qed.

Lemma search_after_split_witness :
  let doc := [ {| extract_text := Some (lit "alpha"); page_obj := 1 |};
               {| extract_text := Some (lit "beta"); page_obj := 2 |};
               {| extract_text := Some (lit "Alpha Beta"); page_obj := 3 |};
               {| extract_text := Some (lit "ALPHA"); page_obj := 4 |} ] in
  exists out,
    extract_pages doc 2 4 = Some out
    /\ search_matches out (lit "alpha") = Some [2; 3]
    /\ search_matches doc (lit "alpha") = Some [1; 3; 4]
    /\ forall n, n ∈ [2; 3] <-> 1 <= n <= 4 - 2 + 1 /\ (2 + n - 1) ∈ [1; 3; 4].
Proof.
  intros doc. eexists. split; [reflexivity|]. split; [reflexivity|].
  split; [reflexivity|].
  eapply (search_after_split doc (lit "alpha") 2 4 _ [2; 3] [1; 3; 4]).
  - vm_compute. intuition discriminate.
  - reflexivity.
  - reflexivity.
  - reflexivity.
Defined.

(** X17.  Two different ranges never share an output file: with the same
    base name, the file names of two ranges of pages are equal only when
    the ranges are. *)
Theorem output_file_injective answer s e s' e' :
  1 <= s -> 1 <= e -> 1 <= s' -> 1 <= e' ->
  output_file answer s e = output_file answer s' e' ->
  s = s' /\ e = e'.
Proof.
  intros Hs He Hs' He'. unfold output_file. intros Heq.
  apply app_inv_head in Heq. apply app_inv_head in Heq.
  pose proof (int_str_of_int s ltac:(lia)) as Is.
  pose proof (int_str_of_int s' ltac:(lia)) as Is'.
  pose proof (int_str_of_int e ltac:(lia)) as Ie.
  pose proof (int_str_of_int e' ltac:(lia)) as Ie'.
  apply split_char_first in Heq as [Hstart Hend].
  - rewrite Hstart in Is. apply app_inv_tail in Hend. rewrite Hend in Ie.
    split; congruence.
  - exact (int_positive_no_dash _ _ Is Hs).
  - exact (int_positive_no_dash _ _ Is' Hs').
Qed.

Lemma output_file_injective_witness :
  output_file (lit "out") 10 40 = output_file (lit "out") 10 40
  /\ output_file (lit "out") 1 23 <> output_file (lit "out") 12 3
  /\ (10 = 10 /\ 40 = 40).
Proof.
  split; [reflexivity|]. split.
  - intros Heq.
    destruct (output_file_injective (lit "out") 1 23 12 3) as [H _];
      [lia..|exact Heq|discriminate H].
  - apply (output_file_injective (lit "out") 10 40 10 40); [lia..|reflexivity].
Defined.

(** ** The command line: further properties *)

Section cli_more.

Lemma search_pdf_ends w path q :
  world (search_pdf w path q) = w
  /\ (status (search_pdf w path q) = Returned
      \/ status (search_pdf w path q) = Exit 1
      \/ status (search_pdf w path q) = Uncaught).
Proof.
  unfold search_pdf, report_and_exit.
  destruct (files w !! path) as [[pages| |error]|]; cbv zeta.
  - destruct (search_matches_total pages q) as [m ->].
    destruct (rejected w _); split; simpl; tauto.
  - split; simpl; tauto.
  - destruct (rejected w _); split; simpl; tauto.
  - destruct (rejected w _); split; simpl; tauto.
Qed.

Lemma split_pdf_ends w answer path r :
  status (split_pdf w answer path r) = Returned
  \/ status (split_pdf w answer path r) = Exit 1
  \/ status (split_pdf w answer path r) = Uncaught.
Proof.
  unfold split_pdf, report_and_exit.
  destruct (files w !! path) as [[pages| |error]|];
    [|simpl; tauto|destruct (rejected w _); simpl; tauto..].
  destruct (parse_range r (Z.of_nat (length pages))) as [[start end_]|e];
    [|destruct (rejected w _); simpl; tauto].
  destruct (extract_pages pages start end_); [|simpl; tauto].
  destruct (can_write w (output_file answer start end_)); [|simpl; tauto].
  destruct (rejected w _); simpl; tauto.
Qed.

Lemma parse_args_command c args :
  plain c = true ->
  parse_args (c :: args) =
  if bool_decide (c = lit "search") then
    if forallb plain args then
      Some match args with
           | [p; q] => Args {| command := Some c; pdf := Some p;
                               query := Some q; range_arg := None |}
           | _ => ParserExit 2 (UsageError (lit "search"))
           end
    else None
  else if bool_decide (c = lit "split") then
    if forallb plain args then
      Some match args with
           | [p; r] => Args {| command := Some c; pdf := Some p;
                               query := None; range_arg := Some r |}
           | _ => ParserExit 2 (UsageError (lit "split"))
           end
    else None
  else Some (ParserExit 2 (UsageError c)).
Proof. intros Hc. unfold parse_args. rewrite Hc. reflexivity. Qed.

End cli_more.

(** X18.  The two sub-commands.  With exactly two further arguments [main]
    runs the search, or the split, on them and ends as that run ends;
    with any other number of arguments the argument parser ends the
    process with code 2 before anything is read or written. *)
Theorem main_dispatch w answer c args :
  forallb plain args = true ->
  (c = lit "search" ->
   main w answer (c :: args) =
   Some match args with
        | [p; q] => search_pdf w p q
        | _ => {| console := [UsageError c]; status := Exit 2; world := w |}
        end)
  /\ (c = lit "split" ->
      main w answer (c :: args) =
      Some match args with
           | [p; r] => split_pdf w answer p r
           | _ => {| console := [UsageError c]; status := Exit 2; world := w |}
           end).
Proof.
  intros Hargs. split; intros ->; unfold main;
    rewrite parse_args_command by reflexivity; simpl; rewrite Hargs;
    destruct args as [|p [|q [|x rest]]]; reflexivity.
Qed.

Lemma main_dispatch_witness :
  let w := world_of {[ lit "a.pdf" := PdfFile [] ]} [] in
  main w [] [lit "search"; lit "a.pdf"; lit "x"]
    = Some (search_pdf w (lit "a.pdf") (lit "x"))
  /\ main w [] [lit "split"; lit "a.pdf"]
     = Some {| console := [UsageError (lit "split")]; status := Exit 2;
               world := w |}.
Proof.
  intros w. split.
  - apply (proj1 (main_dispatch w [] (lit "search") [lit "a.pdf"; lit "x"]
                    eq_refl) eq_refl).
  - apply (proj2 (main_dispatch w [] (lit "split") [lit "a.pdf"] eq_refl)
             eq_refl).
Defined.

(** X19.  However [main] is invoked, the process ends with exit code 0, 1
    or 2.  Code 2 comes from the argument parser alone, and then nothing
    was done: the console holds one usage error and the file system is as
    it was.  The file system can only differ after the [split]
    sub-command. *)
Theorem main_exit_codes w answer argv run :
  main w answer argv = Some run ->
  (exit_code (status run) = 0 \/ exit_code (status run) = 1
   \/ exit_code (status run) = 2)
  /\ (exit_code (status run) = 2 ->
      world run = w /\ exists c, console run = [UsageError c])
  /\ (world run <> w -> exists p r, argv = [lit "split"; p; r]).
Proof.
  unfold main. destruct argv as [|c args].
  - intros [= <-]. simpl. split; [tauto|]. split; [discriminate|congruence].
  - destruct (plain c) eqn:Hc; [|unfold parse_args; rewrite Hc; discriminate].
    rewrite parse_args_command by assumption.
    case_bool_decide as Hsearch.
    + destruct (forallb plain args); [|discriminate]. subst c.
      destruct args as [|p [|q [|x rest]]]; simpl; intros [= <-]; simpl;
        try (split; [tauto|]; split; [eauto|congruence]).
      destruct (search_pdf_ends w p q) as [Hw [-> | [-> | ->]]]; simpl;
        (split; [tauto|]; split; [discriminate|congruence]).
    + case_bool_decide as Hsplit.
      * destruct (forallb plain args); [|discriminate]. subst c.
        destruct args as [|p [|r [|x rest]]]; simpl; intros [= <-]; simpl;
          try (split; [tauto|]; split; [eauto|congruence]).
        destruct (split_pdf_ends w answer p r) as [-> | [-> | ->]]; simpl;
          (split; [tauto|]; split; [discriminate|eauto]).
      * simpl. intros [= <-]. simpl. split; [tauto|]. split; [eauto|congruence].
Qed.

Lemma main_exit_codes_witness :
  let doc := [ {| extract_text := Some (lit "one"); page_obj := 1 |} ] in
  let w := world_of {[ lit "in.pdf" := PdfFile doc ]} [] in
  exists run,
    main w (lit "out") [lit "split"; lit "in.pdf"; lit "1-1"] = Some run
    /\ exit_code (status run) = 0
    /\ (world run <> w ->
        exists p r, [lit "split"; lit "in.pdf"; lit "1-1"] = [lit "split"; p; r]).
Proof.
  intros doc w. eexists. split; [reflexivity|]. split; [reflexivity|].
  eapply (main_exit_codes w (lit "out") [lit "split"; lit "in.pdf"; lit "1-1"]).
  reflexivity.
Defined.
